(** * The simulation clock and the cyclic timer of [datagenerator.core.clock]

    A shallow embedding of [src/datagenerator/core/clock.py]: the [Clock],
    the [CyclicTimerGenerator] bound to it and the [CyclicTimerProfile] it is
    built from, followed by the properties of the specification that concern
    them.

    Conventions of the embedding.
    - Instants ([pd.Timestamp]) and durations ([timedelta]) are integers, in
      whole seconds; [step_s] and the offsets drawn are whole seconds.
    - A float is an exact rational or one of the IEEE special values [PInf],
      [NInf], [NaN].  Rounding and the sign of zero are not modelled; what is
      modelled is what the code relies on: where a division by zero or an
      undefined form yields an infinity or a NaN instead of an exception.
    - A Python call either returns or raises: [outcome]. *)

From Stdlib Require Import ZArith QArith Lqa Lia Ascii String.
From stdpp Require Import base option list strings pretty gmap.

Set Default Proof Using "Type".
Local Open Scope Z_scope.

(** ** Outcomes of Python calls *)

Inductive exn := IndexError | KeyError | ValueError | ZeroDivisionError | IOError.

Inductive outcome (A : Type) :=
  | Ok (a : A)
  | Raises (e : exn)
  | Diverges            (* a loop of the source that did not end within the fuel *)
  | OutOfModel.         (* an input whose library behaviour is not embedded *)
Arguments Ok {A} a.
Arguments Raises {A} e.
Arguments Diverges {A}.
Arguments OutOfModel {A}.

Definition bind {A B} (m : outcome A) (f : A → outcome B) : outcome B :=
  match m with
  | Ok a => f a
  | Raises e => Raises e
  | Diverges => Diverges
  | OutOfModel => OutOfModel
  end.
Notation "'do' x <- m ; k" := (bind m (λ x, k))
  (at level 10, x name, m at level 100, k at level 200,
   format "'[v' 'do'  x  <-  m ; '/' k ']'").

Definition raises {A} (m : outcome A) : Prop := ∃ e, m = Raises e.

(** ** Floats *)

Inductive float64 := Num (q : Q) | PInf | NInf | NaN.

Definition Qlt_bool (x y : Q) : bool := negb (Qle_bool y x).

Definition isnan (x : float64) : bool :=
  match x with NaN => true | _ => false end.

Definition fadd (x y : float64) : float64 :=
  match x, y with
  | NaN, _ | _, NaN => NaN
  | Num a, Num b => Num (a + b)
  | PInf, NInf | NInf, PInf => NaN
  | PInf, _ | _, PInf => PInf
  | NInf, _ | _, NInf => NInf
  end.

Definition fneg (x : float64) : float64 :=
  match x with
  | Num a => Num (- a)
  | PInf => NInf
  | NInf => PInf
  | NaN => NaN
  end.

Definition fsub (x y : float64) : float64 :=
  match x, y with
  | Num a, Num b => Num (a - b)
  | _, _ => fadd x (fneg y)
  end.

(** Division never raises on floats: a zero divisor yields an infinity, and
    [0 / 0] and [inf / inf] yield NaN. *)
Definition fdiv (x y : float64) : float64 :=
  match x, y with
  | NaN, _ | _, NaN => NaN
  | Num a, Num b =>
      if Qeq_bool b 0 then
        if Qeq_bool a 0 then NaN else if Qlt_bool a 0 then NInf else PInf
      else Num (a / b)
  | Num _, (PInf | NInf) => Num 0
  | (PInf | NInf), (PInf | NInf) => NaN
  | PInf, Num b => if Qlt_bool b 0 then NInf else PInf
  | NInf, Num b => if Qlt_bool b 0 then PInf else NInf
  end.

(** The comparisons [<], [<=] and [==] of IEEE floats: false on NaN. *)
Definition fltb (x y : float64) : bool :=
  match x, y with
  | NaN, _ | _, NaN => false
  | Num a, Num b => Qlt_bool a b
  | NInf, NInf | PInf, _ | _, NInf => false
  | NInf, _ | _, PInf => true
  end.

Definition feqb (x y : float64) : bool :=
  match x, y with
  | Num a, Num b => Qeq_bool a b
  | PInf, PInf | NInf, NInf => true
  | _, _ => false
  end.

Definition fleb (x y : float64) : bool := fltb x y || feqb x y.

(** The order numpy sorts and searches floats with: as [<], with NaN after
    every other value. *)
Definition np_less (x y : float64) : bool :=
  fltb x y || (isnan y && negb (isnan x)).

Definition finite (x : float64) : Prop := ∃ q, x = Num q.

(** [Series.sum] and [Series.cumsum] skip NaN entries ([skipna=True]); the
    cumulative sum leaves a NaN at their place. *)
Definition series_sum (l : list float64) : float64 :=
  foldl (λ acc x, if isnan x then acc else fadd acc x) (Num 0) l.

Fixpoint cumsum_from (acc : float64) (l : list float64) : list float64 :=
  match l with
  | [] => []
  | x :: l' =>
      if isnan x then NaN :: cumsum_from acc l'
      else fadd acc x :: cumsum_from (fadd acc x) l'
  end.
Definition cumsum (l : list float64) : list float64 := cumsum_from (Num 0) l.

(** [a.searchsorted(v)] with the default [side='left'] on an array [a] in
    ascending order: the number of leading entries that are less than [v],
    that is the first index [k] with [v <= a[k]], and [len(a)] when there is
    none. *)
Fixpoint searchsorted (a : list float64) (v : float64) : nat :=
  match a with
  | [] => 0%nat
  | x :: a' => if np_less x v then S (searchsorted a' v) else 0%nat
  end.

(** ** The random streams

    [RandomState] comes from [datagenerator.core.random_generators], which
    re-exports numpy's generator.  The code uses three of its operations; the
    class records their contract: [choice(a, size)] draws [size] integers in
    [range(a)] for a positive [a], and [uniform(size=n)] draws [n] numbers in
    [[0, 1)].  Nothing is assumed about [choice] on [a <= 0], where numpy
    raises. *)
Class RandomState (S : Type) := {
  RandomState_seed : Z → S;
  choice : S → Z → nat → outcome (list Z * S);
  uniform : S → nat → list Q * S;
  choice_spec : ∀ s a n, 0 < a →
    ∃ xs s', choice s a n = Ok (xs, s') ∧ length xs = n ∧
             Forall (λ x, 0 ≤ x < a) xs;
  uniform_spec : ∀ s n,
    length (uniform s n).1 = n ∧
    Forall (λ r, 0 <= r ∧ r < 1)%Q (uniform s n).1
}.

(** A concrete stream, a linear congruential generator over 31 bits, to run
    the definitions on. *)
Module Lcg.
Definition modulus : Z := 2 ^ 31.
Definition next (s : Z) : Z := (s * 1103515245 + 12345) `mod` modulus.

Fixpoint draws (s : Z) (n : nat) : list Z * Z :=
  match n with
  | O => ([], s)
  | S n' => let s1 := next s in
            let '(xs, s2) := draws s1 n' in (s1 :: xs, s2)
  end.

Definition choice (s a : Z) (n : nat) : outcome (list Z * Z) :=
  if decide (0 < a) then
    let '(xs, s') := draws s n in Ok ((λ x, x `mod` a) <$> xs, s')
  else Raises ValueError.

Definition uniform (s : Z) (n : nat) : list Q * Z :=
  let '(xs, s') := draws s n in
  ((λ x, Qmake x (Z.to_pos modulus)) <$> xs, s').
End Lcg.

(** ** Clock *)

(** What the clock asks of a listener: an [increment()] method. *)
Class Listener (L : Type) := listener_increment : L → outcome L.

Module Clock.
Section Clock.
Context {RS : Type} `{!RandomState RS}.
(** [(date).strftime(format)], of the standard library. *)
Variable strftime : Z → string → string.

(** The listeners are references to objects that the caller holds too: the
    clock keeps their addresses in a store of listeners that is passed
    along with it. *)
Record t := {
  current_date : Z;
  step_s : Z;
  step_delta : Z;
  output_format : string;
  state : RS;
  ticks_per_day : Q;
  ticks_per_week : Q;
  increment_listeners : list nat
}.

Definition init (start step_s seed : Z) (output_format : string) : outcome t :=
  if decide (step_s = 0) then Raises ZeroDivisionError
  else
    let ticks_per_day := (inject_Z (24 * 60 * 60) / inject_Z step_s)%Q in
    Ok {| current_date := start;
          step_s := step_s;
          step_delta := step_s;
          output_format := output_format;
          state := RandomState_seed seed;
          ticks_per_day := ticks_per_day;
          ticks_per_week := (ticks_per_day * 7)%Q;
          increment_listeners := [] |}.

Definition register_increment_listener (c : t) (listener : nat) : t :=
  {| current_date := current_date c;
     step_s := step_s c;
     step_delta := step_delta c;
     output_format := output_format c;
     state := state c;
     ticks_per_day := ticks_per_day c;
     ticks_per_week := ticks_per_week c;
     increment_listeners := increment_listeners c ++ [listener] |}.

Definition set_current_date (c : t) (d : Z) : t :=
  {| current_date := d;
     step_s := step_s c;
     step_delta := step_delta c;
     output_format := output_format c;
     state := state c;
     ticks_per_day := ticks_per_day c;
     ticks_per_week := ticks_per_week c;
     increment_listeners := increment_listeners c |}.

Definition set_state (c : t) (s : RS) : t :=
  {| current_date := current_date c;
     step_s := step_s c;
     step_delta := step_delta c;
     output_format := output_format c;
     state := s;
     ticks_per_day := ticks_per_day c;
     ticks_per_week := ticks_per_week c;
     increment_listeners := increment_listeners c |}.

(** [for listener in listeners: listener.increment()], on the store. *)
Fixpoint notify {L} `{!Listener L} (listeners : list nat) (store : list L)
    : outcome (list L) :=
  match listeners with
  | [] => Ok store
  | i :: rest =>
      match store !! i with
      | Some l =>
          do l' <- listener_increment l;
          notify rest (<[i := l']> store)
      | None => OutOfModel
      end
  end.

Definition increment {L} `{!Listener L} (c : t) (store : list L)
    : outcome (t * list L) :=
  let c' := set_current_date c (current_date c + step_delta c) in
  do store' <- notify (increment_listeners c') store;
  Ok (c', store').

Definition make_ts (c : t) (x : Z) : string :=
  strftime (current_date c + x) (output_format c).

Definition get_timestamp (c : t) (size : nat) : outcome (list string * t) :=
  do drawn <- choice (state c) (step_s c) size;
  Ok (make_ts c <$> drawn.1, set_state c drawn.2).

(** [ClockOps.Timestamp.build_output]: the frame of one column, named
    [named_as], with a timestamp per row of [action_data], on the index of
    [action_data]; of [action_data] only its index is read.  The frame
    constructor raises when the values are not as many as the index. *)
Definition build_output {I} (c : t) (named_as : string)
    (action_data_index : list I) : outcome (string * list (I * string) * t) :=
  do r <- get_timestamp c (length action_data_index);
  if decide (length r.1 = length action_data_index) then
    Ok (named_as, zip action_data_index r.1, r.2)
  else Raises ValueError.

(** [n] ticks in a row. *)
Fixpoint run {L} `{!Listener L} (n : nat) (c : t) (store : list L)
    : outcome (t * list L) :=
  match n with
  | O => Ok (c, store)
  | S n' => do w <- increment c store; run n' w.1 w.2
  end.

(** The calls that a clock takes, and a sequence of them. *)
Inductive call :=
  | Increment
  | Register_increment_listener (listener : nat)
  | Get_timestamp (size : nat).

Definition is_increment (op : call) : bool :=
  match op with Increment => true | _ => false end.

Definition do_call {L} `{!Listener L} (op : call) (c : t) (store : list L)
    : outcome (t * list L) :=
  match op with
  | Increment => increment c store
  | Register_increment_listener listener =>
      Ok (register_increment_listener c listener, store)
  | Get_timestamp size =>
      do r <- get_timestamp c size; Ok (r.2, store)
  end.

Fixpoint do_calls {L} `{!Listener L} (ops : list call) (c : t) (store : list L)
    : outcome (t * list L) :=
  match ops with
  | [] => Ok (c, store)
  | op :: ops' => do w <- do_call op c store; do_calls ops' w.1 w.2
  end.
End Clock.
End Clock.
Arguments Clock.t RS : clear implicits.

(** ** CyclicTimerProfile *)

Module CyclicTimerProfile.
Record t := {
  start_date : Z;
  profile : list float64;
  profile_time_steps : string
}.

(** The frame that is saved has a two-level index and one column,
    ["value"]; [to_csv] writes one line per row, with the two index levels
    and the text of the value, and [read_csv(index_col=[0, 1])] reads these
    lines back.  A file is kept as these lines, split in their fields. *)
Definition csv_row : Type := string * Z * string.
Definition level0 (r : csv_row) : string := r.1.1.
Definition level1 (r : csv_row) : Z := r.1.2.

(** [df.loc[(k0, k1),] = v]: the row of that key is overwritten, and
    appended when there is none. *)
Fixpoint loc_set (k0 : string) (k1 : Z) (v : string) (df : list csv_row)
    : list csv_row :=
  match df with
  | [] => [(k0, k1, v)]
  | r :: df' =>
      if decide (level0 r = k0 ∧ level1 r = k1) then (k0, k1, v) :: df'
      else r :: loc_set k0 k1 v df'
  end.



Section Persistence.
(** The conversions of Python and pandas between values and their text:
    [str] of a weight and of an instant, [float(text)] and
    [pd.Timestamp(text)]. *)
Variable str_of_float : float64 → string.
Variable float_of_str : string → option float64.
Variable str_of_Timestamp : Z → string.
Variable Timestamp : string → option Z.

(** The frame of the weights, stacked: a row per weight, under the key
    ["profile"] and its position, with the text of the weight. *)
Definition profile_rows (weights : list float64) : list csv_row :=
  imap (λ i w, ("profile"%string, Z.of_nat i, str_of_float w)) weights.

Definition save_to (self : t) (file_path : string)
    (fs : gmap string (list csv_row)) : gmap string (list csv_row) :=
  let saved_df := profile_rows (profile self) in
  let saved_df :=
    loc_set "start_date" 0 (str_of_Timestamp (start_date self)) saved_df in
  let saved_df :=
    loc_set "profile_time_steps" 0 (profile_time_steps self) saved_df in
  <[file_path := saved_df]> fs.

End Persistence.
End CyclicTimerProfile.

(** ** CyclicTimerGenerator *)

(** Modelled from the spec: [latest_date_before] of
    [datagenerator.core.util_functions], which is not part of the sources at
    hand.  It is the latest instant [starting_date + n * time_step] that is
    at or before [upper_bound], the anchor being shifted by whole cycles
    towards the clock's date. *)
Definition latest_date_before (starting_date upper_bound time_step : Z) : Z :=
  starting_date + (upper_bound - starting_date) `div` time_step * time_step.

Module CyclicTimerGenerator.
(** A row of the frame [self.profile]: its index label, an instant, and
    its two columns. *)
Record row := { label : Z; cdf : float64; timeframe : nat }.

Definition set_cdf (r : row) (x : float64) : row :=
  {| label := label r; cdf := x; timeframe := timeframe r |}.

(** [df.loc[l, "cdf"] = x]: every row labelled [l] is assigned. *)
Definition loc_set_cdf (l : Z) (x : float64) (df : list row) : list row :=
  (λ r, if decide (label r = l) then set_cdf r x else r) <$> df.

(** Up-sampling of the weights to the step of the clock, for a phase of
    [k] steps that starts on a step: [resample] puts every value in the bin
    of its instant, the [k - 1] bins that follow a weight are empty and the
    closing NaN has a bin of its own; [fill_method='pad'] fills the bins
    that hold no number with the last number before them. *)
Fixpoint bins (k : nat) (ser : list float64) : list float64 :=
  match ser with
  | [] => []
  | [x] => [x]
  | x :: ser' => x :: replicate (k - 1) NaN ++ bins k ser'
  end.

Fixpoint pad_from (prev : float64) (l : list float64) : list float64 :=
  match l with
  | [] => []
  | x :: l' =>
      if isnan x then prev :: pad_from prev l' else x :: pad_from x l'
  end.

Definition resample_pad (k : nat) (ser : list float64) : list float64 :=
  pad_from NaN (bins k ser).

Definition seconds_per_day : Z := 24 * 60 * 60.

(** The frame of the cumulative values [profile_cdf]: the rows are labelled
    with the instants of the steps, from [init_date] on, and
    [np.arange(len(profile_cdf))] is their [timeframe]. *)
Definition frame (init_date step : Z) (profile_cdf : list float64) : list row :=
  imap (λ i c, {| label := init_date + Z.of_nat i * step;
                  cdf := c;
                  timeframe := i |}) profile_cdf.

(** [self.profile.iloc[1:]] followed by [self.profile.iloc[:1]]. *)
Definition rotate1 {A} (l : list A) : list A := drop 1 l ++ take 1 l.

(** [increment] on the frame. *)
Definition increment_profile (profile : list row) : outcome (list row) :=
  match profile with
  | [] => Raises IndexError
  | first :: _ =>
      let profile := (λ r, set_cdf r (fsub (cdf r) (cdf first))) <$> profile in
      let profile := rotate1 profile in
      match last profile with
      | Some r => Ok (loc_set_cdf (label r) (Num 1) profile)
      | None => Raises IndexError
      end
  end.

(** [while self.profile.index[0] < clock.current_date: self.increment()] *)
Fixpoint align (fuel : nat) (current_date : Z) (profile : list row)
    : outcome (list row) :=
  match profile with
  | [] => Raises IndexError
  | first :: _ =>
      if decide (label first < current_date) then
        match fuel with
        | O => Diverges
        | S fuel' =>
            do profile' <- increment_profile profile;
            align fuel' current_date profile'
        end
      else Ok profile
  end.

(** [self.profile["cdf"].searchsorted(p)] for [p = draw / observations]. *)
Definition wait_times (profile : list row) (draw : list Q)
    (observations : list float64) : list nat :=
  let p := zip_with fdiv (Num <$> draw) observations in
  searchsorted (cdf <$> profile) <$> p.

Section Generator.
Context {RS : Type} `{!RandomState RS}.
(** [pd.Timedelta(text)], in seconds. *)
Variable Timedelta : string → option Z.

Record t := { state : RS; profile : list row }.

#[export] Instance listener : Listener t := λ self,
  do profile' <- increment_profile (profile self);
  Ok {| state := state self; profile := profile' |}.

Definition increment (self : t) : outcome t := listener_increment self.

(** [n] calls to [increment] in a row. *)
Fixpoint increments (n : nat) (self : t) : outcome t :=
  match n with
  | O => Ok self
  | S n' => do self' <- increment self; increments n' self'
  end.

Definition generate (self : t) (observations : list float64)
    : outcome (list nat * t) :=
  let drawn := uniform (state self) (length observations) in
  Ok (wait_times (profile self) drawn.1 observations,
      {| state := drawn.2; profile := profile self |}).

(** The constructor.  [fuel] bounds the iterations of its alignment loop.
    It returns the address of the new generator in the store of
    listeners, with the clock and the store after the registration.
    The resampling is embedded for a clock step that divides the phase
    of the profile, with the cycle starting on a step of the day. *)
Definition init (fuel : nat) (clock : Clock.t RS) (store : list t)
    (seed : Z) (config : CyclicTimerProfile.t)
    : outcome (nat * Clock.t RS * list t) :=
  let state := RandomState_seed seed in
  let weights := CyclicTimerProfile.profile config in
  match Timedelta (CyclicTimerProfile.profile_time_steps config) with
  | None => Raises ValueError
  | Some phase =>
      let step := Clock.step_s clock in
      let cycle := phase * Z.of_nat (length weights) in
      if decide (0 < step ∧ 0 < cycle ∧ phase `mod` step = 0) then
        let init_date :=
          latest_date_before (CyclicTimerProfile.start_date config)
                             (Clock.current_date clock) cycle in
        if decide ((init_date `mod` seconds_per_day) `mod` step = 0) then
          let profile_ser :=
            removelast
              (resample_pad (Z.to_nat (phase `div` step)) (weights ++ [NaN])) in
          let total := series_sum profile_ser in
          let profile_cdf := cumsum ((λ w, fdiv w total) <$> profile_ser) in
          let profile := frame init_date step profile_cdf in
          do profile <- align fuel (Clock.current_date clock) profile;
          let self := {| state := state; profile := profile |} in
          let address := length store in
          Ok (address,
              Clock.register_increment_listener clock address,
              store ++ [self])
        else OutOfModel
      else OutOfModel
  end.
End Generator.
Arguments t RS : clear implicits.
End CyclicTimerGenerator.

(** ** Concrete library functions

    Instances of the functions of the libraries that the embedding takes as
    parameters, to run the definitions on: decimal text for numbers and
    instants, and durations written as a count followed by a unit. *)
Module Concrete.
Definition digit (c : Ascii.ascii) : option Z :=
  let n := Z.of_nat (nat_of_ascii c) in
  if decide (48 ≤ n ≤ 57) then Some (n - 48) else None.

Fixpoint digits (acc : Z) (s : string) : Z * string :=
  match s with
  | EmptyString => (acc, s)
  | String c s' =>
      match digit c with
      | Some d => digits (10 * acc + d) s'
      | None => (acc, s)
      end
  end.


Definition Timedelta (s : string) : option Z :=
  let '(n, unit) := digits 0 s in
  if decide (unit = "s") then Some n
  else if decide (unit = "min") then Some (60 * n)
  else if decide (unit = "h") then Some (3600 * n)
  else if decide (unit = "D") then Some (86400 * n)
  else None.

Definition strftime (date : Z) (format : string) : string := pretty date.

Definition str_of_float (x : float64) : string :=
  match x with
  | Num q => if decide (Qden q = 1%positive) then pretty (Qnum q) else "nan"
  | _ => "nan"
  end.

Definition str_of_Timestamp (date : Z) : string := pretty date.
End Concrete.

(** ** The contract of the text conversions

    [save_to] and [load_from] go through the text of the values: [str] of a
    weight and of the anchor date on the way out, [float] and
    [pd.Timestamp] on the way in.  What the libraries promise of them is
    that the text of a value reads back as that value. *)
Class TextConversions := {
  text_of_float : float64 → string;
  float_of_text : string → option float64;
  text_of_Timestamp : Z → string;
  Timestamp_of_text : string → option Z;
  float_of_text_of_float : ∀ w, float_of_text (text_of_float w) = Some w;
  Timestamp_of_text_of_Timestamp :
    ∀ date, Timestamp_of_text (text_of_Timestamp date) = Some date
}.

(** Conversions that keep this promise on every value of the embedding, to
    run the definitions on: integers in binary digits, a rational as its
    numerator and its denominator. *)
Module Text.
Fixpoint bits (p : positive) (rest : string) : string :=
  match p with
  | xH => String "1" rest
  | xO p' => bits p' (String "0" rest)
  | xI p' => bits p' (String "1" rest)
  end.

Fixpoint read_bits (acc : option positive) (s : string)
    : option positive * string :=
  match s with
  | EmptyString => (acc, s)
  | String c s' =>
      if Ascii.eqb c "1" then
        read_bits (Some (match acc with Some p => xI p | None => xH end)) s'
      else if Ascii.eqb c "0" then
        match acc with
        | Some p => read_bits (Some (xO p)) s'
        | None => (None, s)
        end
      else (acc, s)
  end.

Definition of_Z (z : Z) (rest : string) : string :=
  match z with
  | Z0 => String "0" rest
  | Zpos p => bits p rest
  | Zneg p => String "-" (bits p rest)
  end.

Definition read_Z (s : string) : option (Z * string) :=
  match s with
  | EmptyString => None
  | String c s' =>
      if Ascii.eqb c "0" then Some (0, s')
      else if Ascii.eqb c "-" then
        match read_bits None s' with
        | (Some p, rest) => Some (Zneg p, rest)
        | _ => None
        end
      else
        match read_bits None s with
        | (Some p, rest) => Some (Zpos p, rest)
        | _ => None
        end
  end.

Definition of_Timestamp (date : Z) : string := of_Z date EmptyString.
Definition to_Timestamp (s : string) : option Z :=
  match read_Z s with
  | Some (date, EmptyString) => Some date
  | _ => None
  end.

Definition of_float (x : float64) : string :=
  match x with
  | Num q => String "q" (of_Z (Qnum q) (String "/" (bits (Qden q) EmptyString)))
  | PInf => "inf"
  | NInf => "-inf"
  | NaN => "nan"
  end.

Definition to_float (s : string) : option float64 :=
  if decide (s = "inf") then Some PInf
  else if decide (s = "-inf") then Some NInf
  else if decide (s = "nan") then Some NaN
  else
    match s with
    | String c s' =>
        if Ascii.eqb c "q" then
          match read_Z s' with
          | Some (n, String c' s'') =>
              if Ascii.eqb c' "/" then
                match read_bits None s'' with
                | (Some d, EmptyString) => Some (Num (n # d))
                | _ => None
                end
              else None
          | _ => None
          end
        else None
    | EmptyString => None
    end.
End Text.

(** ** A concrete run

    The clock and the profile of the round-trip example of the specification:
    a clock of one-hour steps started on 2020-01-01T00:00:00 (1577836800
    seconds after the epoch) and the weights 1, 2, 3, 4 on phases of one hour
    anchored at that instant; [generator] is what the constructor builds for
    them (see [Example_generator_built]). *)
Module Example.
Definition start : Z := 1577836800.

Definition config : CyclicTimerProfile.t :=
  {| CyclicTimerProfile.start_date := start;
     CyclicTimerProfile.profile := [Num 1; Num 2; Num 3; Num 4];
     CyclicTimerProfile.profile_time_steps := "1h" |}.

Definition clock : Clock.t Z :=
  {| Clock.current_date := start;
     Clock.step_s := 3600;
     Clock.step_delta := 3600;
     Clock.output_format := "%Y%m%d %H:%M:%S";
     Clock.state := 42;
     Clock.ticks_per_day := 86400 # 3600;
     Clock.ticks_per_week := 604800 # 3600;
     Clock.increment_listeners := [] |}.

Definition generator : CyclicTimerGenerator.t Z :=
  {| CyclicTimerGenerator.state := 7;
     CyclicTimerGenerator.profile :=
       [ {| CyclicTimerGenerator.label := 1577836800;
            CyclicTimerGenerator.cdf := Num (1 # 10);
            CyclicTimerGenerator.timeframe := 0 |};
         {| CyclicTimerGenerator.label := 1577840400;
            CyclicTimerGenerator.cdf := Num (30 # 100);
            CyclicTimerGenerator.timeframe := 1 |};
         {| CyclicTimerGenerator.label := 1577844000;
            CyclicTimerGenerator.cdf := Num (600 # 1000);
            CyclicTimerGenerator.timeframe := 2 |};
         {| CyclicTimerGenerator.label := 1577847600;
            CyclicTimerGenerator.cdf := Num (10000 # 10000);
            CyclicTimerGenerator.timeframe := 3 |} ] |}.

(** The clock two hours later, and in the last half hour of the cycle of
    four hours. *)
Definition clock_at_2h : Clock.t Z :=
  Clock.set_current_date clock (start + 2 * 3600).
Definition clock_at_3h30 : Clock.t Z :=
  Clock.set_current_date clock (start + 3 * 3600 + 1800).

(** The profile of a cycle without any activity. *)
Definition idle : CyclicTimerProfile.t :=
  {| CyclicTimerProfile.start_date := start;
     CyclicTimerProfile.profile := [Num 0; Num 0; Num 0];
     CyclicTimerProfile.profile_time_steps := "1h" |}.

(** The generator that the constructor builds for it. *)
Definition idle_generator : CyclicTimerGenerator.t Z :=
  {| CyclicTimerGenerator.state := 7;
     CyclicTimerGenerator.profile :=
       [ {| CyclicTimerGenerator.label := 1577836800;
            CyclicTimerGenerator.cdf := NaN;
            CyclicTimerGenerator.timeframe := 0 |};
         {| CyclicTimerGenerator.label := 1577840400;
            CyclicTimerGenerator.cdf := NaN;
            CyclicTimerGenerator.timeframe := 1 |};
         {| CyclicTimerGenerator.label := 1577844000;
            CyclicTimerGenerator.cdf := NaN;
            CyclicTimerGenerator.timeframe := 2 |} ] |}.
End Example.

(** * Vocabulary of the properties *)

Import CyclicTimerGenerator.

(** The cumulative column of a frame. *)
Definition column (profile : list row) : list float64 := cdf <$> profile.

(** [n] rotations of a frame in a row. *)
Fixpoint increments_profile (n : nat) (profile : list row) : outcome (list row) :=
  match n with
  | O => Ok profile
  | S n' => do profile' <- increment_profile profile; increments_profile n' profile'
  end.

(** The invariant of the cumulative column. *)
Fixpoint nondecreasing (col : list float64) : bool :=
  match col with
  | x :: (y :: _) as col' => fleb x y && nondecreasing col'
  | _ => true
  end.

(** Distinct labels; finite values that start at or above 0, do not decrease
    and end at 1. *)
Record cumulative (profile : list row) : Prop := {
  cumulative_labels : NoDup (label <$> profile);
  cumulative_finite : Forall finite (column profile);
  cumulative_sorted : nondecreasing (column profile) = true;
  cumulative_first :
    ∃ c, head (column profile) = Some c ∧ fleb (Num 0) c = true;
  cumulative_last :
    ∃ c, last (column profile) = Some c ∧ feqb c (Num 1) = true
}.

(** A column without any number: NaN in every row, but for the last one when
    a rotation has closed it with 1. *)
Definition blank (profile : list row) : Prop :=
  NoDup (label <$> profile) ∧
  ∃ m c, column profile = replicate m NaN ++ [c] ∧ (c = NaN ∨ c = Num 1).

(** The same on rationals, for the proofs. *)
Fixpoint Qnondecreasing (qs : list Q) : Prop :=
  match qs with
  | x :: (y :: _) as qs' => (x <= y)%Q ∧ Qnondecreasing qs'
  | _ => True
  end.

Definition Qsum (qs : list Q) : Q := foldl Qplus 0%Q qs.

Fixpoint Qcumsum_from (acc : Q) (qs : list Q) : list Q :=
  match qs with
  | [] => []
  | q :: qs' => (acc + q)%Q :: Qcumsum_from (acc + q)%Q qs'
  end.

(** The listeners of a clock are generators that the constructor has built:
    addresses of the store, of generators whose frame has a row. *)
Definition listeners_ok {RS} (listeners : list nat) (store : list (t RS)) : Prop :=
  Forall (λ i, (i < length store)%nat) listeners ∧
  Forall (λ g, profile g ≠ []) store.

Section Covered.
Context {RS : Type} `{!RandomState RS}.
Variable Timedelta : string → option Z.

(** The date that the cycle is aligned on, and the steps of a cycle. *)
Definition cycle_start (clock : Clock.t RS) (config : CyclicTimerProfile.t)
    (phase : Z) : Z :=
  latest_date_before (CyclicTimerProfile.start_date config)
    (Clock.current_date clock)
    (phase * Z.of_nat (length (CyclicTimerProfile.profile config))).

Definition cycle_steps (clock : Clock.t RS) (config : CyclicTimerProfile.t)
    (phase : Z) : nat :=
  (length (CyclicTimerProfile.profile config)
   * Z.to_nat (phase `div` Clock.step_s clock))%nat.

(** The inputs that the embedding of the constructor covers: a phase of a
    whole number of steps, a cycle that starts on a step of the day, weights
    that are numbers, at least one of them, and a clock that is not in the
    last, cut, step of the cycle (where the alignment loop does not end). *)
Record covered (clock : Clock.t RS) (config : CyclicTimerProfile.t)
    (phase : Z) (qs : list Q) : Prop := {
  covered_phase :
    Timedelta (CyclicTimerProfile.profile_time_steps config) = Some phase;
  covered_step : 0 < Clock.step_s clock;
  covered_positive : 0 < phase;
  covered_divides : phase `mod` Clock.step_s clock = 0;
  covered_grid :
    (cycle_start clock config phase `mod` seconds_per_day)
      `mod` Clock.step_s clock = 0;
  covered_weights : CyclicTimerProfile.profile config = Num <$> qs;
  covered_nonempty : qs ≠ [];
  covered_date :
    Clock.current_date clock
    ≤ cycle_start clock config phase
      + Z.of_nat (cycle_steps clock config phase) * Clock.step_s clock
      - Clock.step_s clock
}.
End Covered.

(** A probability: a float between 0 and 1. *)
Definition in_unit (c : float64) : bool := fleb (Num 0) c && fleb c (Num 1).

(** How many times an address is registered. *)
Definition registrations (i : nat) (listeners : list nat) : nat :=
  length (filter (λ j, j = i) listeners).

(** * Properties *)

(** ** The concrete random stream *)

Lemma Lcg_draws_spec (s : Z) (n : nat) :
  length (Lcg.draws s n).1 = n ∧
  Forall (λ x, 0 ≤ x < Lcg.modulus) (Lcg.draws s n).1.
Proof.
  revert s. induction n as [|n IH]; intros s; simpl; [by split|].
  specialize (IH (Lcg.next s)). destruct (Lcg.draws (Lcg.next s) n) as [xs s2].
  simpl in *. destruct IH as [Hlen Hall]. split; [by rewrite Hlen|].
  constructor; [|done]. apply Z.mod_pos_bound. done.
Qed.

Lemma Lcg_choice_spec (s a : Z) (n : nat) :
  0 < a →
  ∃ xs s', Lcg.choice s a n = Ok (xs, s') ∧ length xs = n ∧
           Forall (λ x, 0 ≤ x < a) xs.
Proof.
  intros Ha. unfold Lcg.choice. rewrite decide_True by done.
  destruct (Lcg_draws_spec s n) as [Hlen _].
  destruct (Lcg.draws s n) as [xs s']. simpl in *.
  eexists _, _. split; [done|]. split; [by rewrite length_fmap|].
  apply Forall_fmap, Forall_forall. intros x _. simpl.
  by apply Z.mod_pos_bound.
Qed.

Lemma Lcg_uniform_spec (s : Z) (n : nat) :
  length (Lcg.uniform s n).1 = n ∧
  Forall (λ r, 0 <= r ∧ r < 1)%Q (Lcg.uniform s n).1.
Proof.
  unfold Lcg.uniform. destruct (Lcg_draws_spec s n) as [Hlen Hall].
  destruct (Lcg.draws s n) as [xs s']. cbn [fst] in *.
  split; [by rewrite length_fmap|].
  apply Forall_fmap. eapply Forall_impl; [exact Hall|].
  intros x [Hx0 Hx1]. unfold compose, Qle, Qlt. cbn [Qnum Qden].
  change (Z.pos (Z.to_pos Lcg.modulus)) with Lcg.modulus. lia.
Qed.

#[local] Instance Lcg_RandomState : RandomState Z := {|
  RandomState_seed := λ seed, seed `mod` Lcg.modulus;
  choice := Lcg.choice;
  uniform := Lcg.uniform;
  choice_spec := Lcg_choice_spec;
  uniform_spec := Lcg_uniform_spec
|}.


(** ** The concrete run *)

Lemma Example_clock_built :
  Clock.init Example.start 3600 42 "%Y%m%d %H:%M:%S" = Ok Example.clock.
Proof. reflexivity. Qed.

Lemma Example_generator_built :
  init Concrete.Timedelta 0 Example.clock [] 7 Example.config
  = Ok (0%nat, Clock.register_increment_listener Example.clock 0,
        [Example.generator]).
Proof. vm_compute. reflexivity. Qed.

(** ** One rotation of the frame *)

Lemma rotate1_cons {A} (x : A) (l : list A) : rotate1 (x :: l) = l ++ [x].
Proof. unfold rotate1. simpl. by rewrite drop_0, take_0. Qed.

Lemma rotate1_length {A} (l : list A) : length (rotate1 l) = length l.
Proof. destruct l as [|x l]; [done|]. rewrite rotate1_cons, length_app. simpl. lia. Qed.

Lemma rotate1_fmap {A B} (f : A → B) (l : list A) :
  f <$> rotate1 l = rotate1 (f <$> l).
Proof. unfold rotate1. by rewrite fmap_app, fmap_drop, fmap_take. Qed.

Lemma rotate1_perm {A} (l : list A) : rotate1 l ≡ₚ l.
Proof.
  destruct l as [|x l]; [done|]. rewrite rotate1_cons.
  symmetry. apply Permutation_cons_append.
Qed.

Lemma loc_set_cdf_length l x df : length (loc_set_cdf l x df) = length df.
Proof. unfold loc_set_cdf. by rewrite length_fmap. Qed.

Lemma loc_set_cdf_label l x df : label <$> loc_set_cdf l x df = label <$> df.
Proof.
  unfold loc_set_cdf. rewrite <- list_fmap_compose. apply list_fmap_ext.
  intros i r _. simpl. by destruct (decide _).
Qed.

Lemma loc_set_cdf_timeframe l x df :
  timeframe <$> loc_set_cdf l x df = timeframe <$> df.
Proof.
  unfold loc_set_cdf. rewrite <- list_fmap_compose. apply list_fmap_ext.
  intros i r _. simpl. by destruct (decide _).
Qed.

Lemma loc_set_cdf_other l x df :
  l ∉ label <$> df → loc_set_cdf l x df = df.
Proof.
  intros Hl. unfold loc_set_cdf. induction df as [|r df IH]; [done|].
  simpl in *. apply not_elem_of_cons in Hl as [Hr Hdf].
  rewrite decide_False by done. f_equal. by apply IH.
Qed.

(** What one call does to a frame whose labels are distinct: the values are
    rebased on the first one, the first row goes last and is given 1. *)
Lemma increment_profile_cons first rest :
  NoDup (label <$> first :: rest) →
  increment_profile (first :: rest) =
    Ok (((λ r, set_cdf r (fsub (cdf r) (cdf first))) <$> rest)
          ++ [set_cdf first (Num 1)]).
Proof.
  intros Hnd. unfold increment_profile.
  rewrite fmap_cons, rotate1_cons, last_snoc. simpl.
  f_equal. unfold loc_set_cdf at 1. rewrite fmap_app. f_equal.
  - rewrite fmap_cons in Hnd. apply NoDup_cons in Hnd as [Hfirst _].
    fold (loc_set_cdf (label first) (Num 1)
            ((λ r, set_cdf r (fsub (cdf r) (cdf first))) <$> rest)).
    apply loc_set_cdf_other.
    rewrite <- list_fmap_compose. exact Hfirst.
  - simpl. by rewrite decide_True.
Qed.

Lemma increment_profile_is_Ok profile :
  profile ≠ [] → ∃ profile', increment_profile profile = Ok profile'.
Proof.
  destruct profile as [|first rest]; [done|]. intros _.
  unfold increment_profile.
  rewrite fmap_cons, rotate1_cons, last_snoc. eauto.
Qed.

Lemma increment_profile_shape profile profile' :
  increment_profile profile = Ok profile' →
  length profile' = length profile ∧
  label <$> profile' = rotate1 (label <$> profile) ∧
  timeframe <$> profile' = rotate1 (timeframe <$> profile).
Proof.
  destruct profile as [|first rest]; [done|].
  unfold increment_profile.
  set (f := λ r, set_cdf r (fsub (cdf r) (cdf first))).
  generalize (first :: rest). intros l.
  destruct (last _) as [r|] eqn:Hlast; [|done].
  intros [= <-].
  rewrite loc_set_cdf_length, loc_set_cdf_label, loc_set_cdf_timeframe.
  rewrite rotate1_length, length_fmap, !rotate1_fmap.
  rewrite <- !list_fmap_compose. done.
Qed.

(** ** Comparisons of finite floats *)

Lemma Qlt_bool_iff (a b : Q) : Qlt_bool a b = true ↔ (a < b)%Q.
Proof.
  unfold Qlt_bool. rewrite negb_true_iff, <- not_true_iff_false, Qle_bool_iff.
  split; [apply Qnot_le_lt | apply Qlt_not_le].
Qed.

Lemma fltb_Num (a b : Q) : fltb (Num a) (Num b) = true ↔ (a < b)%Q.
Proof. apply Qlt_bool_iff. Qed.

Lemma feqb_Num (a b : Q) : feqb (Num a) (Num b) = true ↔ (a == b)%Q.
Proof. apply Qeq_bool_iff. Qed.

Lemma fleb_Num (a b : Q) : fleb (Num a) (Num b) = true ↔ (a <= b)%Q.
Proof.
  unfold fleb. rewrite orb_true_iff, fltb_Num, feqb_Num, Qle_lteq. done.
Qed.

Lemma np_less_Num (a b : Q) : np_less (Num a) (Num b) = true ↔ (a < b)%Q.
Proof.
  unfold np_less. simpl. rewrite orb_false_r. apply Qlt_bool_iff.
Qed.

Lemma finite_fmap (col : list float64) :
  Forall finite col → ∃ qs, col = Num <$> qs.
Proof.
  induction 1 as [|x col [q ->] _ [qs ->]].
  - by exists [].
  - by exists (q :: qs).
Qed.

Lemma Forall_finite_fmap (qs : list Q) : Forall finite (Num <$> qs).
Proof. apply Forall_fmap, Forall_forall. intros q _. by exists q. Qed.

(** ** The invariant of the cumulative column *)

Lemma nondecreasing_Num (qs : list Q) :
  nondecreasing (Num <$> qs) = true ↔ Qnondecreasing qs.
Proof.
  induction qs as [|x [|y qs] IH]; [done..|].
  change (fleb (Num x) (Num y) && nondecreasing (Num <$> y :: qs) = true
          ↔ (x <= y)%Q ∧ Qnondecreasing (y :: qs)).
  by rewrite andb_true_iff, fleb_Num, IH.
Qed.

Lemma Qnondecreasing_tail x qs : Qnondecreasing (x :: qs) → Qnondecreasing qs.
Proof. destruct qs; [done|]. by intros [_ ?]. Qed.

Lemma Qnondecreasing_shift (d : Q) (qs : list Q) :
  Qnondecreasing qs → Qnondecreasing ((λ q, q - d)%Q <$> qs).
Proof.
  induction qs as [|x [|y qs] IH]; [done..|].
  intros [Hxy Hqs]. split; [lra|]. by apply IH.
Qed.

Lemma Qnondecreasing_snoc (qs : list Q) (y : Q) :
  Qnondecreasing qs → (∀ q, last qs = Some q → (q <= y)%Q) →
  Qnondecreasing (qs ++ [y]).
Proof.
  induction qs as [|x [|x' qs] IH]; intros Hqs Hlast; [done| |].
  - split; [|done]. by apply Hlast.
  - destruct Hqs as [Hx Hqs]. split; [done|]. apply IH; [done|].
    intros q Hq. by apply Hlast.
Qed.

Lemma column_rebased (first : row) (rest : list row) (q0 : Q) (qs : list Q) :
  cdf first = Num q0 → column rest = Num <$> qs →
  column (((λ r, set_cdf r (fsub (cdf r) (cdf first))) <$> rest)
            ++ [set_cdf first (Num 1)])
  = Num <$> (((λ q, q - q0)%Q <$> qs) ++ [1%Q]).
Proof.
  intros Hfirst Hrest. unfold column in *.
  rewrite !fmap_app, <- !list_fmap_compose. f_equal.
  rewrite Hfirst.
  change (((λ c, fsub c (Num q0)) ∘ cdf) <$> rest = (Num ∘ (λ q, q - q0)%Q) <$> qs).
  rewrite (list_fmap_compose cdf), Hrest, <- list_fmap_compose. done.
Qed.

Lemma cumulative_inv (profile : list row) :
  cumulative profile →
  ∃ first rest q0 qs,
    profile = first :: rest ∧ cdf first = Num q0 ∧ column rest = Num <$> qs ∧
    NoDup (label <$> first :: rest) ∧ Qnondecreasing (q0 :: qs) ∧
    (0 <= q0)%Q ∧ ∃ q, last (q0 :: qs) = Some q ∧ (q == 1)%Q.
Proof.
  intros [Hnd Hfin Hsorted (c0 & Hhead & Hc0) (c & Hlast & Hc)].
  destruct profile as [|first rest]; [done|].
  apply finite_fmap in Hfin as [[|q0 qs] Hqs]; [done|].
  rewrite Hqs in Hsorted, Hlast, Hhead.
  injection Hhead as <-. apply fleb_Num in Hc0.
  apply nondecreasing_Num in Hsorted.
  rewrite fmap_last in Hlast.
  destruct (last (q0 :: qs)) as [q|] eqn:Hq; [|done].
  injection Hlast as <-. apply feqb_Num in Hc.
  injection Hqs as Hfirst Hrest.
  exists first, rest, q0, qs. eauto 10.
Qed.

Lemma cumulative_intro (profile : list row) (q0 : Q) (qs : list Q) :
  NoDup (label <$> profile) → column profile = Num <$> q0 :: qs →
  Qnondecreasing (q0 :: qs) → (0 <= q0)%Q →
  (∃ q, last (q0 :: qs) = Some q ∧ (q == 1)%Q) →
  cumulative profile.
Proof.
  intros Hnd Hcol Hsorted Hq0 (q & Hlast & Hq).
  split; [done|..]; rewrite Hcol.
  - apply Forall_finite_fmap.
  - by apply nondecreasing_Num.
  - exists (Num q0). split; [done|]. by apply fleb_Num.
  - exists (Num q). rewrite fmap_last, Hlast. split; [done|]. by apply feqb_Num.
Qed.

(** The invariant is kept by a rotation. *)
Lemma increment_profile_cumulative (profile : list row) :
  cumulative profile →
  ∃ profile', increment_profile profile = Ok profile' ∧ cumulative profile'.
Proof.
  intros Hwf.
  destruct (cumulative_inv _ Hwf)
    as (first & rest & q0 & qs & -> & Hfirst & Hrest & Hnd & Hsorted & Hq0
        & q & Hlast & Hq).
  eexists. split; [by apply increment_profile_cons|].
  pose proof (column_rebased first rest q0 qs Hfirst Hrest) as Hcol.
  assert (Hsorted' : Qnondecreasing (((λ q, q - q0)%Q <$> qs) ++ [1%Q])).
  { apply Qnondecreasing_snoc.
    - apply Qnondecreasing_shift. by eapply Qnondecreasing_tail.
    - intros q'. rewrite fmap_last. destruct (last qs) as [ql|] eqn:Hql; [|done].
      intros [= <-]. rewrite last_cons, Hql in Hlast. injection Hlast as ->. lra. }
  assert (Hnd' : NoDup (label <$> ((λ r, set_cdf r (fsub (cdf r) (cdf first))) <$> rest)
                                    ++ [set_cdf first (Num 1)])).
  { rewrite fmap_app, <- list_fmap_compose. simpl.
    change (NoDup ((label <$> rest) ++ [label first])).
    eapply NoDup_Permutation_proper; [|exact Hnd].
    rewrite fmap_cons. symmetry. apply Permutation_cons_append. }
  destruct qs as [|q1 qs].
  - eapply (cumulative_intro _ 1%Q []); [done|exact Hcol|done|lra|].
    exists 1%Q. split; [done|lra].
  - destruct Hsorted as [Hq01 Hsorted].
    eapply (cumulative_intro _ (q1 - q0)%Q (((λ q, q - q0)%Q <$> qs) ++ [1%Q]));
      [done|exact Hcol|exact Hsorted'|lra|].
    exists 1%Q. rewrite last_cons, last_snoc. split; [done|lra].
Qed.

(** ** CyclicTimerGenerator.increment *)

Section Increment.
Context {RS : Type} `{!RandomState RS}.
Implicit Types self : t RS.

Lemma increment_unfold self :
  increment self =
    do profile' <- increment_profile (profile self);
    Ok {| state := state self; profile := profile' |}.
Proof. reflexivity. Qed.

Lemma increment_Ok_inv self self' :
  increment self = Ok self' →
  increment_profile (profile self) = Ok (profile self') ∧
  state self' = state self.
Proof.
  rewrite increment_unfold.
  destruct (increment_profile (profile self)) as [p| | |]; [|done..].
  by intros [= <-].
Qed.

Lemma increment_is_Ok self :
  profile self ≠ [] → ∃ self', increment self = Ok self'.
Proof.
  intros Hne. destruct (increment_profile_is_Ok _ Hne) as [profile' Hinc].
  rewrite increment_unfold, Hinc. simpl. eauto.
Qed.

(** C10.  A call to [increment] on a generator, whose frame has at least
    one row, returns; it keeps the number of rows, and the [timeframe]
    column after the call is the column before it with its first entry
    moved to the end, hence a permutation of it. *)
Theorem increment_rotates_timeframe self :
  profile self ≠ [] →
  ∃ self',
    increment self = Ok self' ∧
    length (profile self') = length (profile self) ∧
    timeframe <$> profile self' =
      drop 1 (timeframe <$> profile self) ++ take 1 (timeframe <$> profile self) ∧
    timeframe <$> profile self' ≡ₚ timeframe <$> profile self.
Proof.
  intros Hne.
  destruct (increment_profile_is_Ok _ Hne) as [profile' Hinc].
  exists {| state := state self; profile := profile' |}.
  rewrite increment_unfold, Hinc. split; [done|]. simpl.
  destruct (increment_profile_shape _ _ Hinc) as (Hlen & _ & Htf).
  split; [done|]. split; [exact Htf|].
  rewrite Htf. apply rotate1_perm.
Qed.

(** C1, as the code has it.  After a call to [increment] on a generator
    whose cumulative column is finite, starts at or above 0, does not
    decrease and ends at 1 (with distinct labels, as the constructor
    builds it), the last row holds 1 and the column does not decrease,
    and all of this holds again, so after every later call too.  The first
    row does not hold 0: it holds the old second value minus the old
    first, the share of the tick that has become the current one. *)
Theorem increment_closes_cycle self :
  cumulative (profile self) →
  ∃ self',
    increment self = Ok self' ∧
    (∃ c, last (column (profile self')) = Some c ∧ feqb c (Num 1) = true) ∧
    nondecreasing (column (profile self')) = true ∧
    (∀ c0 c1 col, column (profile self) = c0 :: c1 :: col →
       head (column (profile self')) = Some (fsub c1 c0)) ∧
    cumulative (profile self').
Proof.
  intros Hwf.
  destruct (increment_profile_cumulative _ Hwf) as (profile' & Hinc & Hwf').
  exists {| state := state self; profile := profile' |}.
  rewrite increment_unfold, Hinc. simpl.
  split; [done|]. split; [apply Hwf'|]. split; [apply Hwf'|]. split; [|done].
  intros c0 c1 col Hcol.
  destruct (profile self) as [|first [|second rest]]; [done..|].
  injection Hcol as <- <- _.
  rewrite increment_profile_cons in Hinc by apply Hwf.
  injection Hinc as <-. done.
Qed.
End Increment.

Lemma Example_generator_cumulative : cumulative (profile Example.generator).
Proof.
  split.
  - apply (bool_decide_unpack _). vm_compute. exact I.
  - repeat constructor; eexists; reflexivity.
  - vm_compute. reflexivity.
  - eexists. split; [reflexivity|]. vm_compute. reflexivity.
  - eexists. split; [reflexivity|]. vm_compute. reflexivity.
Defined.

(** C10 at the generator of the concrete run. *)
Lemma increment_rotates_timeframe_witness :
  profile Example.generator ≠ [] ∧
  ∃ self', increment Example.generator = Ok self' ∧
           timeframe <$> profile self' = [1; 2; 3; 0]%nat.
Proof.
  split; [discriminate|].
  destruct (increment_rotates_timeframe Example.generator)
    as (self' & Hinc & _ & Htf & _); [discriminate|].
  exists self'. split; [exact Hinc | exact Htf].
Defined.

(** C1 at the generator of the concrete run. *)
Lemma increment_closes_cycle_witness :
  cumulative (profile Example.generator) ∧
  ∃ self', increment Example.generator = Ok self' ∧
           nondecreasing (column (profile self')) = true ∧
           cumulative (profile self').
Proof.
  split; [exact Example_generator_cumulative|].
  destruct (increment_closes_cycle Example.generator Example_generator_cumulative)
    as (self' & Hinc & _ & Hsorted & _ & Hwf).
  exists self'. split; [exact Hinc|]. split; [exact Hsorted | exact Hwf].
Defined.

(** C1 as the specification words it fails on the generator that the
    constructor builds for the weights 1, 2, 3, 4: after a call to
    [increment] its first row holds 0.3 - 0.1, the share of the second
    phase, and not 0. *)
Lemma increment_first_row_not_zero :
  init Concrete.Timedelta 0 Example.clock [] 7 Example.config
  = Ok (0%nat, Clock.register_increment_listener Example.clock 0,
        [Example.generator]) ∧
  ∃ self' c,
    increment Example.generator = Ok self' ∧
    head (column (profile self')) = Some c ∧
    feqb c (Num (2 # 10)) = true ∧ feqb c (Num 0) = false.
Proof.
  split; [exact Example_generator_built|].
  eexists _, _. split; [vm_compute; reflexivity|].
  split; [reflexivity|]. split; vm_compute; reflexivity.
Qed.

(** ** A whole cycle of rotations *)




Section Periodicity.
Context {RS : Type} `{!RandomState RS}.
Implicit Types self : t RS.

Lemma increments_unfold (n : nat) self :
  increments n self =
    do profile' <- increments_profile n (profile self);
    Ok {| state := state self; profile := profile' |}.
Proof.
  revert self. induction n as [|n IH]; intros self; [by destruct self|].
  cbn [increments increments_profile]. rewrite increment_unfold.
  destruct (increment_profile (profile self)) as [p| | |]; cbn [bind]; [|done..].
  by rewrite IH.
Qed.

End Periodicity.

(** ** Sampling *)

Lemma searchsorted_le_length (a : list float64) (v : float64) :
  (searchsorted a v ≤ length a)%nat.
Proof. induction a as [|x a IH]; simpl; [lia|]. destruct (np_less x v); lia. Qed.

Lemma searchsorted_all_less (a : list float64) (v : float64) :
  Forall (λ c, np_less c v = true) a → searchsorted a v = length a.
Proof. induction 1 as [|x a Hx _ IH]; simpl; [done|]. by rewrite Hx, IH. Qed.

Lemma searchsorted_mono (a : list float64) (v v' : float64) :
  (∀ c, np_less c v = true → np_less c v' = true) →
  (searchsorted a v ≤ searchsorted a v')%nat.
Proof.
  intros Hvv'. induction a as [|x a IH]; simpl; [lia|].
  destruct (np_less x v) eqn:Hx; [|lia]. rewrite (Hvv' _ Hx). lia.
Qed.

Lemma np_less_Num_mono (c : float64) (p p' : Q) :
  (p <= p')%Q → np_less c (Num p) = true → np_less c (Num p') = true.
Proof.
  intros Hpp'. destruct c as [q| | |]; [|done..].
  rewrite !np_less_Num. lra.
Qed.

Lemma fdiv_Num (r o : Q) : ¬ (o == 0)%Q → fdiv (Num r) (Num o) = Num (r / o).
Proof.
  intros Ho. simpl. destruct (Qeq_bool o 0) eqn:Heq; [|done].
  by apply Qeq_bool_iff in Heq.
Qed.

Lemma Qdiv_antitone (r o1 o2 : Q) :
  (0 <= r)%Q → (0 < o1)%Q → (o1 < o2)%Q → (r / o2 <= r / o1)%Q.
Proof.
  intros Hr Ho1 Ho12.
  apply Qle_shift_div_r; [lra|].
  assert (Hx : (0 <= r / o1)%Q) by (apply Qle_shift_div_l; lra).
  assert (Hr1 : (r / o1 * o1 == r)%Q) by (field; lra).
  nra.
Qed.

Lemma wait_times_length profile draw observations :
  length draw = length observations →
  length (wait_times profile draw observations) = length observations.
Proof.
  intros Hlen. unfold wait_times.
  rewrite length_fmap, length_zip_with, length_fmap. lia.
Qed.

Lemma wait_times_lookup profile draw observations i r o :
  draw !! i = Some r → observations !! i = Some o →
  wait_times profile draw observations !! i
    = Some (searchsorted (column profile) (fdiv (Num r) o)).
Proof.
  intros Hr Ho. unfold wait_times.
  rewrite list_lookup_fmap, lookup_zip_with, list_lookup_fmap, Hr. simpl.
  by rewrite Ho.
Qed.

Lemma wait_times_bound profile draw observations :
  Forall (λ w, (w ≤ length profile)%nat) (wait_times profile draw observations).
Proof.
  unfold wait_times. apply Forall_fmap, Forall_forall. intros p _. simpl.
  etrans; [apply searchsorted_le_length|]. by rewrite length_fmap.
Qed.

Section Generate.
Context {RS : Type} `{!RandomState RS}.
Implicit Types self : t RS.

Lemma searchsorted_antitone (a : list float64) (r o1 o2 : Q) :
  (0 <= r)%Q → (0 < o1)%Q → (o1 < o2)%Q →
  (searchsorted a (fdiv (Num r) (Num o2))
   ≤ searchsorted a (fdiv (Num r) (Num o1)))%nat.
Proof.
  intros Hr Ho1 Ho12. rewrite !fdiv_Num by lra.
  apply searchsorted_mono. intros c.
  apply np_less_Num_mono. by apply Qdiv_antitone.
Qed.

(** C3.  With the same frame and the same draw [r] in [[0, 1)], the larger
    of two positive observations never gets the longer wait. *)
Theorem generate_antitone (profile : list row) (r o1 o2 : Q) :
  (0 <= r)%Q → (r < 1)%Q → (0 < o1)%Q → (o1 < o2)%Q →
  ∃ w1 w2,
    wait_times profile [r] [Num o1] = [w1] ∧
    wait_times profile [r] [Num o2] = [w2] ∧
    (w2 ≤ w1)%nat.
Proof.
  intros Hr0 Hr1 Ho1 Ho12. eexists _, _.
  split; [reflexivity|]. split; [reflexivity|].
  by apply searchsorted_antitone.
Qed.

Lemma generate_unfold self observations :
  generate self observations =
    let drawn := uniform (state self) (length observations) in
    Ok (wait_times (profile self) drawn.1 observations,
        {| state := drawn.2; profile := profile self |}).
Proof. reflexivity. Qed.

(** The same for the draw that [generate] makes in a given state of the
    generator. *)
Lemma generate_same_draw self (o1 o2 : Q) :
  (0 < o1)%Q → (o1 < o2)%Q →
  ∃ w1 w2 self',
    generate self [Num o1] = Ok ([w1], self') ∧
    generate self [Num o2] = Ok ([w2], self') ∧
    (w2 ≤ w1)%nat.
Proof.
  intros Ho1 Ho12. rewrite !generate_unfold. simpl.
  destruct (uniform_spec (state self) 1) as [Hlen Hall].
  destruct (uniform (state self) 1) as [[|r [|? ?]] s']; [done| |done].
  apply Forall_cons in Hall as [[Hr0 Hr1] _].
  eexists _, _, {| state := s'; profile := profile self |}.
  split; [reflexivity|]. split; [reflexivity|].
  by apply searchsorted_antitone.
Qed.

(** C4.  [generate] returns one wait per observation, and for every
    positive observation [o] whose [p = r / o] exceeds every cumulative
    probability of the frame, [r] being the draw made for it, the wait is
    the number of rows of the frame. *)
Theorem generate_beyond_cycle self (observations : list float64) :
  ∃ waits self',
    generate self observations = Ok (waits, self') ∧
    length waits = length observations ∧
    ∀ (i : nat) (r o : Q),
      (uniform (state self) (length observations)).1 !! i = Some r →
      observations !! i = Some (Num o) →
      (0 < o)%Q →
      Forall (λ c, fltb c (fdiv (Num r) (Num o)) = true) (column (profile self)) →
      waits !! i = Some (length (profile self)).
Proof.
  rewrite generate_unfold. eexists _, _. split; [reflexivity|].
  destruct (uniform_spec (state self) (length observations)) as [Hlen _].
  split; [by apply wait_times_length|].
  intros i r o Hr Ho Hpos Hall.
  rewrite (wait_times_lookup _ _ _ _ _ _ Hr Ho). f_equal.
  rewrite searchsorted_all_less; [by unfold column; rewrite length_fmap|].
  eapply Forall_impl; [exact Hall|].
  intros c Hc. unfold np_less. by rewrite Hc.
Qed.

(** C8, as the code has it.  [generate] does not look at the sign of the
    observations: for every batch, with or without zero or negative
    entries, it returns one wait per entry, between 0 and the number of
    rows of the frame. *)
Theorem generate_total self (observations : list float64) :
  ∃ waits self',
    generate self observations = Ok (waits, self') ∧
    length waits = length observations ∧
    Forall (λ w, (w ≤ length (profile self))%nat) waits.
Proof.
  rewrite generate_unfold. eexists _, _. split; [reflexivity|].
  destruct (uniform_spec (state self) (length observations)) as [Hlen _].
  split; [by apply wait_times_length|apply wait_times_bound].
Qed.
End Generate.

(** C3 at the frame of the concrete run, for the draw 1/2 and the
    observations 1 and 2. *)
Lemma generate_antitone_witness :
  ((0 <= 1 # 2)%Q ∧ (1 # 2 < 1)%Q ∧ (0 < 1)%Q ∧ (1 < 2)%Q) ∧
  ∃ w1 w2,
    wait_times (profile Example.generator) [1 # 2] [Num 1] = [w1] ∧
    wait_times (profile Example.generator) [1 # 2] [Num 2] = [w2] ∧
    (w2 ≤ w1)%nat.
Proof.
  split; [repeat split; discriminate|].
  apply (generate_antitone (profile Example.generator) (1 # 2) 1 2);
    [discriminate|reflexivity..].
Defined.

(** C4 at the generator of the concrete run, for the observation 1e-9. *)
Lemma generate_beyond_cycle_witness :
  ∃ waits self',
    generate Example.generator [Num (1 # 1000000000)] = Ok (waits, self') ∧
    waits !! 0%nat = Some 4%nat.
Proof.
  destruct (generate_beyond_cycle Example.generator [Num (1 # 1000000000)])
    as (waits & self' & Hgen & _ & Hbeyond).
  exists waits, self'. split; [exact Hgen|].
  apply (Hbeyond 0%nat (1282168116 # 2147483648)%Q (1 # 1000000000)%Q);
    [vm_compute; reflexivity | reflexivity | reflexivity |].
  repeat constructor.
Defined.

(** C8 as the specification words it fails on the generator of the concrete
    run: a batch with a zero and a negative entry is answered like any
    other, here with the waits 2, 4 and 0, and no error is raised. *)
Lemma generate_accepts_non_positive :
  generate Example.generator [Num 1; Num 0; Num (-1)]
  = Ok ([2; 4; 0]%nat,
        {| state := 712265938; profile := profile Example.generator |}) ∧
  ¬ raises (generate Example.generator [Num 1; Num 0; Num (-1)]).
Proof.
  split; [vm_compute; reflexivity|].
  intros [e He]. vm_compute in He. discriminate.
Qed.

(** ** Clock *)

Section ClockProperties.
Context {RS : Type} `{!RandomState RS}.
Variable strftime : Z → string → string.
Implicit Types (c : Clock.t RS) (store : list (t RS)).

Lemma increment_keeps_rows (g g' : t RS) :
  increment g = Ok g' → profile g ≠ [] → profile g' ≠ [].
Proof.
  intros Hinc Hne. apply increment_Ok_inv in Hinc as [Hinc _].
  apply increment_profile_shape in Hinc as [Hlen _].
  intros Hnil. rewrite Hnil in Hlen. by destruct (profile g).
Qed.

Lemma notify_ok (listeners : list nat) store :
  listeners_ok listeners store →
  ∃ store', Clock.notify listeners store = Ok store' ∧
            length store' = length store ∧
            Forall (λ g, profile g ≠ []) store'.
Proof.
  revert store. induction listeners as [|i listeners IH]; intros store [Hi Hne].
  - by exists store.
  - apply Forall_cons in Hi as [Hi Hrest].
    destruct (lookup_lt_is_Some_2 store i Hi) as [g Hg]. simpl. rewrite Hg.
    assert (Hgne : profile g ≠ []).
    { eapply Forall_forall in Hne; [exact Hne|]. by eapply list_elem_of_lookup_2. }
    destruct (increment_is_Ok g Hgne) as (g' & Hinc).
    change (listener_increment g) with (increment g). rewrite Hinc. simpl.
    destruct (IH (<[i := g']> store)) as (store' & Hnotify & Hlen & Hne').
    { split; [by rewrite length_insert|].
      apply Forall_insert; [done|]. by eapply increment_keeps_rows. }
    exists store'. rewrite length_insert in Hlen. done.
Qed.

Lemma increment_clock_ok c store :
  listeners_ok (Clock.increment_listeners c) store →
  ∃ c' store',
    Clock.increment c store = Ok (c', store') ∧
    c' = Clock.set_current_date c (Clock.current_date c + Clock.step_delta c) ∧
    listeners_ok (Clock.increment_listeners c') store'.
Proof.
  intros Hok. destruct (notify_ok _ _ Hok) as (store' & Hnotify & Hlen & Hne).
  unfold Clock.increment. simpl. rewrite Hnotify. simpl.
  eexists _, _. split; [done|]. split; [done|]. simpl.
  split; [|done]. rewrite Hlen. apply Hok.
Qed.

Lemma run_ok (n : nat) c store :
  listeners_ok (Clock.increment_listeners c) store →
  ∃ c' store',
    Clock.run n c store = Ok (c', store') ∧
    Clock.current_date c' = Clock.current_date c + Z.of_nat n * Clock.step_delta c.
Proof.
  revert c store. induction n as [|n IH]; intros c store Hok.
  - exists c, store. split; [done|]. lia.
  - destruct (increment_clock_ok c store Hok) as (c1 & store1 & Hinc & -> & Hok1).
    destruct (IH _ _ Hok1) as (c' & store' & Hrun & Hdate).
    exists c', store'. cbn [Clock.run]. rewrite Hinc. simpl bind.
    split; [exact Hrun|]. rewrite Hdate. simpl. lia.
Qed.

Lemma do_call_date (op : Clock.call) c store c' store' :
  Clock.do_call strftime op c store = Ok (c', store') →
  Clock.step_delta c' = Clock.step_delta c ∧
  Clock.current_date c' =
    Clock.current_date c + (if Clock.is_increment op then Clock.step_delta c else 0).
Proof.
  destruct op as [|listener|size]; simpl.
  - unfold Clock.increment.
    destruct (Clock.notify _ store) as [s| | |]; [|done..].
    intros [= <- <-]. done.
  - intros [= <- <-]. simpl. split; [done|lia].
  - unfold Clock.get_timestamp.
    destruct (choice _ _ _) as [drawn| | |]; [|done..].
    intros [= <- <-]. simpl. split; [done|lia].
Qed.

Lemma do_calls_date (ops : list Clock.call) c store c' store' :
  Clock.do_calls strftime ops c store = Ok (c', store') →
  Clock.step_delta c' = Clock.step_delta c ∧
  Clock.current_date c' =
    Clock.current_date c
    + Z.of_nat (length (filter (λ op, Clock.is_increment op = true) ops))
      * Clock.step_delta c.
Proof.
  revert c store. induction ops as [|op ops IH]; intros c store.
  - intros [= <- <-]. split; [done|]. simpl. lia.
  - cbn [Clock.do_calls].
    destruct (Clock.do_call strftime op c store) as [[c1 store1]| | |] eqn:Hop; [|done..].
    simpl bind. intros Hops.
    apply do_call_date in Hop as [Hdelta Hdate].
    apply IH in Hops as [Hdelta' Hdate'].
    split; [congruence|]. rewrite Hdate', Hdate, Hdelta.
    rewrite filter_cons. destruct op; simpl; lia.
Qed.
End ClockProperties.

Section ClockClaims.
Context {RS : Type} `{!RandomState RS}.
Variable strftime : Z → string → string.
Implicit Types (c : Clock.t RS) (store : list (t RS)).

(** C2.  For a clock constructed with the instant [start] and a positive
    step: after any sequence of calls that have returned, its date is
    [start] plus the step times the number of calls to [increment] among
    them; from there a call never takes the date back, and a call other
    than [increment] leaves it as it is; and [n] calls to [increment] in a
    row, whatever listeners have been registered, return and leave the
    date at [start + n * step]. *)
Theorem clock_tick_monotonicity (start step seed : Z) (format : string)
    (c0 : Clock.t RS) :
  Clock.init start step seed format = Ok c0 →
  0 < step →
  (∀ ops store0 c store,
     Clock.do_calls strftime ops c0 store0 = Ok (c, store) →
     Clock.current_date c =
       start + Z.of_nat (length (filter (λ op, Clock.is_increment op = true) ops)) * step ∧
     ∀ op c' store',
       Clock.do_call strftime op c store = Ok (c', store') →
       Clock.current_date c ≤ Clock.current_date c' ∧
       (Clock.is_increment op = false →
        Clock.current_date c' = Clock.current_date c)) ∧
  (∀ (n : nat) listeners store,
     listeners_ok listeners store →
     ∃ c' store',
       Clock.run n (foldl Clock.register_increment_listener c0 listeners) store
       = Ok (c', store') ∧
       Clock.current_date c' = start + Z.of_nat n * step).
Proof.
  intros Hinit Hstep. unfold Clock.init in Hinit.
  destruct (decide (step = 0)) as [|_]; [lia|].
  injection Hinit as <-. split.
  - intros ops store0 c store Hops.
    apply do_calls_date in Hops as [Hdelta Hdate]. simpl in *.
    split; [exact Hdate|].
    intros op c' store' Hop.
    apply do_call_date in Hop as [_ Hdate']. rewrite Hdate', Hdelta.
    clear Hdate'. split.
    + destruct (Clock.is_increment op); lia.
    + intros ->. lia.
  - intros n listeners store Hok.
    set (c0 := {| Clock.current_date := start |}).
    assert (Hreg : ∀ ls c,
      Clock.increment_listeners (foldl Clock.register_increment_listener c ls)
        = Clock.increment_listeners c ++ ls ∧
      Clock.current_date (foldl Clock.register_increment_listener c ls)
        = Clock.current_date c ∧
      Clock.step_delta (foldl Clock.register_increment_listener c ls)
        = Clock.step_delta c).
    { induction ls as [|l ls IH]; intros c; simpl.
      - by rewrite app_nil_r.
      - destruct (IH (Clock.register_increment_listener c l)) as (-> & -> & ->).
        simpl. by rewrite <- (assoc_L (++)). }
    destruct (Hreg listeners c0) as (Hls & Hdate & Hdelta).
    destruct (run_ok n (foldl Clock.register_increment_listener c0 listeners) store)
      as (c' & store' & Hrun & Hdate'); [by rewrite Hls|].
    exists c', store'. split; [done|]. by rewrite Hdate', Hdate, Hdelta.
Qed.

End ClockClaims.

(** C2 at the clock of the concrete run, with its generator registered:
    three ticks of an hour. *)
Lemma clock_tick_monotonicity_witness :
  Clock.init Example.start 3600 42 "%Y%m%d %H:%M:%S" = Ok Example.clock ∧
  0 < 3600 ∧
  ∃ c' store',
    Clock.run 3 (foldl Clock.register_increment_listener Example.clock [0%nat])
              [Example.generator]
    = Ok (c', store') ∧
    Clock.current_date c' = Example.start + Z.of_nat 3 * 3600.
Proof.
  split; [reflexivity|]. split; [reflexivity|].
  assert (Hinit : Clock.init Example.start 3600 42 "%Y%m%d %H:%M:%S"
                  = Ok Example.clock) by reflexivity.
  destruct (clock_tick_monotonicity Concrete.strftime Example.start 3600 42
              "%Y%m%d %H:%M:%S" Example.clock Hinit eq_refl) as [_ Hrun].
  apply (Hrun 3%nat [0%nat] [Example.generator]).
  split; repeat constructor. discriminate.
Defined.



(** ** The constructor *)

(** Up-sampling repeats every weight over the steps of its phase. *)
Lemma pad_from_replicate_NaN (prev : float64) (m : nat) (l : list float64) :
  pad_from prev (replicate m NaN ++ l) = replicate m prev ++ pad_from prev l.
Proof. induction m as [|m IH]; simpl; [done|]. by rewrite IH. Qed.

Lemma resample_pad_closing (k : nat) (prev : float64) (weights : list float64) :
  (1 ≤ k)%nat → Forall (λ w, isnan w = false) weights →
  pad_from prev (bins k (weights ++ [NaN]))
  = (weights ≫= replicate k) ++ [default prev (last weights)].
Proof.
  intros Hk Hws. revert prev.
  induction Hws as [|w ws Hw _ IH]; intros prev; [done|].
  assert (Hbins : bins k ((w :: ws) ++ [NaN])
                  = w :: replicate (k - 1) NaN ++ bins k (ws ++ [NaN])).
  { simpl. by destruct ws. }
  rewrite Hbins. cbn [pad_from]. rewrite Hw, pad_from_replicate_NaN, IH.
  rewrite last_cons, bind_cons.
  destruct k as [|k]; [lia|]. replace (S k - 1)%nat with k by lia.
  cbn [replicate]. rewrite <- (assoc_L (++)). simpl. do 3 f_equal.
  by destruct (last ws).
Qed.

Lemma resample_profile (k : nat) (weights : list float64) :
  (1 ≤ k)%nat → Forall (λ w, isnan w = false) weights →
  removelast (resample_pad k (weights ++ [NaN])) = weights ≫= replicate k.
Proof.
  intros Hk Hws. unfold resample_pad.
  rewrite resample_pad_closing by done. apply removelast_last.
Qed.

Lemma series_sum_Num (qs : list Q) : series_sum (Num <$> qs) = Num (Qsum qs).
Proof.
  unfold series_sum, Qsum. generalize 0%Q.
  induction qs as [|q qs IH]; intros acc; simpl; [done|]. apply IH.
Qed.

Lemma cumsum_from_Num (acc : Q) (qs : list Q) :
  cumsum_from (Num acc) (Num <$> qs) = Num <$> Qcumsum_from acc qs.
Proof.
  revert acc. induction qs as [|q qs IH]; intros acc; simpl; [done|].
  by rewrite IH.
Qed.

Lemma foldl_Qplus_acc (acc : Q) (qs : list Q) :
  (foldl Qplus acc qs == acc + Qsum qs)%Q.
Proof.
  unfold Qsum. revert acc. induction qs as [|q qs IH]; intros acc; simpl; [lra|].
  rewrite (IH (acc + q)%Q), (IH (0 + q)%Q). lra.
Qed.

Lemma Qsum_cons (q : Q) (qs : list Q) : (Qsum (q :: qs) == q + Qsum qs)%Q.
Proof. unfold Qsum at 1. simpl. rewrite foldl_Qplus_acc. lra. Qed.

Lemma Qsum_nonneg (qs : list Q) : Forall (λ q, 0 <= q)%Q qs → (0 <= Qsum qs)%Q.
Proof.
  induction 1 as [|q qs Hq _ IH]; [by compute|]. rewrite Qsum_cons. lra.
Qed.

Lemma Qsum_app (qs qs' : list Q) : (Qsum (qs ++ qs') == Qsum qs + Qsum qs')%Q.
Proof.
  induction qs as [|q qs IH]; simpl.
  - unfold Qsum at 2. simpl. lra.
  - rewrite !Qsum_cons, IH. lra.
Qed.

Lemma Qsum_scale (d : Q) (qs : list Q) :
  (Qsum ((λ q, q / d) <$> qs) == Qsum qs / d)%Q.
Proof.
  induction qs as [|q qs IH].
  - unfold Qsum. simpl. unfold Qdiv. lra.
  - rewrite fmap_cons, !Qsum_cons, IH. unfold Qdiv. lra.
Qed.

Lemma Qcumsum_from_nondecreasing (acc : Q) (qs : list Q) :
  Forall (λ q, 0 <= q)%Q qs → Qnondecreasing (acc :: Qcumsum_from acc qs).
Proof.
  intros Hqs. revert acc. induction Hqs as [|q qs Hq _ IH]; intros acc; [done|].
  simpl. split; [lra|]. apply IH.
Qed.

Lemma Qcumsum_from_last (acc : Q) (qs : list Q) :
  ∃ q, last (acc :: Qcumsum_from acc qs) = Some q ∧ (q == acc + Qsum qs)%Q.
Proof.
  revert acc. induction qs as [|q qs IH]; intros acc.
  - exists acc. split; [done|]. unfold Qsum. simpl. lra.
  - destruct (IH (acc + q)%Q) as (l & Hl & Heq).
    exists l. split; [exact Hl|]. rewrite Heq, Qsum_cons. lra.
Qed.

(** The frame that the constructor starts from. *)
Lemma frame_column (init_date step : Z) (col : list float64) :
  column (frame init_date step col) = col.
Proof.
  unfold column, frame. rewrite fmap_imap.
  change (imap (const id) col = col). by rewrite imap_const, list_fmap_id.
Qed.

Lemma frame_length (init_date step : Z) (col : list float64) :
  length (frame init_date step col) = length col.
Proof. apply length_imap. Qed.

Lemma frame_label (init_date step : Z) (col : list float64) :
  label <$> frame init_date step col
  = (λ i, init_date + Z.of_nat i * step) <$> seq 0 (length col).
Proof.
  unfold frame. rewrite fmap_imap.
  exact (imap_seq_0 col (λ i, init_date + Z.of_nat i * step)).
Qed.

Lemma frame_NoDup (init_date step : Z) (col : list float64) :
  0 < step → NoDup (label <$> frame init_date step col).
Proof.
  intros Hstep. rewrite frame_label.
  apply NoDup_fmap_2; [|apply NoDup_seq].
  intros i j Hij. nia.
Qed.

(** The alignment loop makes as many rotations as there are labels before
    the date of the clock, when a label at or after that date follows them. *)
Lemma align_rotations (la lb : list Z) (l : Z) (current_date : Z) (fuel : nat)
    (profile : list row) :
  label <$> profile = la ++ l :: lb →
  Forall (λ x, x < current_date) la → current_date ≤ l →
  (length la ≤ fuel)%nat →
  align fuel current_date profile = increments_profile (length la) profile.
Proof.
  revert lb l fuel profile.
  induction la as [|x la IH]; intros lb l fuel profile Hlabel Hla Hl Hfuel.
  - destruct profile as [|first rest]; [done|].
    injection Hlabel as Hfirst _.
    destruct fuel; simpl; by rewrite decide_False by lia.
  - destruct profile as [|first rest]; [done|].
    apply Forall_cons in Hla as [Hx Hla].
    destruct fuel as [|fuel]; [simpl in Hfuel; lia|].
    assert (Hfirst : label first = x) by (by injection Hlabel).
    cbn [align length increments_profile]. rewrite decide_True by lia.
    destruct (increment_profile_is_Ok (first :: rest)) as [profile' Hinc]; [done|].
    rewrite Hinc. cbn [bind].
    apply (IH (lb ++ [x]) l); [|done|done|simpl in Hfuel; lia].
    apply increment_profile_shape in Hinc as (_ & -> & _).
    rewrite Hlabel. change ((x :: la) ++ l :: lb) with (x :: (la ++ l :: lb)).
    rewrite rotate1_cons, <- (assoc_L (++)). done.
Qed.

Lemma align_frame (init_date step current_date : Z) (col : list float64)
    (fuel : nat) :
  0 < step → col ≠ [] →
  current_date ≤ init_date + Z.of_nat (length col) * step - step →
  (length col ≤ fuel)%nat →
  ∃ j, (j < length col)%nat ∧
       align fuel current_date (frame init_date step col)
       = increments_profile j (frame init_date step col).
Proof.
  intros Hstep Hcol Hdate Hfuel.
  set (d := current_date - init_date).
  set (e := (d + step - 1) `div` step).
  assert (Hn : (0 < length col)%nat) by (destruct col; [done|simpl; lia]).
  set (n := length col) in *.
  assert (He1 : step * e ≤ d + step - 1) by (apply Z.mul_div_le; lia).
  assert (He2 : d + step - 1 < step * Z.succ e) by (apply Z.mul_succ_div_gt; lia).
  assert (He3 : e < Z.of_nat n).
  { apply Z.div_lt_upper_bound; [lia|]. unfold d. nia. }
  set (j := Z.to_nat e).
  assert (Hj : (j < n)%nat) by lia.
  exists j. split; [done|].
  set (f := λ i : nat, init_date + Z.of_nat i * step).
  assert (Hlabel : label <$> frame init_date step col
                   = (f <$> seq 0 j) ++ f j :: (f <$> seq (S j) (n - S j))).
  { rewrite frame_label. fold n f.
    replace n with (j + S (n - S j))%nat at 1 by lia.
    rewrite seq_app, fmap_app. simpl. done. }
  pose proof (align_rotations _ _ _ current_date fuel _ Hlabel) as Halign.
  rewrite length_fmap, length_seq in Halign. apply Halign.
  - apply Forall_fmap, Forall_forall. intros i Hi.
    apply elem_of_seq in Hi. unfold f. simpl. unfold d in *. nia.
  - unfold f, d in *. nia.
  - lia.
Qed.

Lemma increments_profile_cumulative (n : nat) (profile : list row) :
  cumulative profile →
  ∃ profile', increments_profile n profile = Ok profile' ∧ cumulative profile'.
Proof.
  revert profile. induction n as [|n IH]; intros profile Hwf; [by exists profile|].
  destruct (increment_profile_cumulative _ Hwf) as (p1 & Hinc & Hwf1).
  destruct (IH _ Hwf1) as (p' & Hincs & Hwf').
  exists p'. cbn [increments_profile]. by rewrite Hinc.
Qed.

Lemma column_increment (first : row) (rest : list row) :
  column (((λ r, set_cdf r (fsub (cdf r) (cdf first))) <$> rest)
            ++ [set_cdf first (Num 1)])
  = ((λ c, fsub c (cdf first)) <$> column rest) ++ [Num 1].
Proof.
  unfold column. rewrite fmap_app, <- !list_fmap_compose. done.
Qed.

Lemma fsub_NaN (x : float64) : fsub x NaN = NaN.
Proof. by destruct x. Qed.

Lemma increment_profile_blank (profile : list row) :
  blank profile →
  ∃ profile', increment_profile profile = Ok profile' ∧ blank profile'.
Proof.
  intros (Hnd & m & c & Hcol & Hc).
  destruct profile as [|first rest]; [by destruct m|].
  eexists. split; [by apply increment_profile_cons|]. split.
  - rewrite fmap_app, <- list_fmap_compose. simpl.
    change (NoDup ((label <$> rest) ++ [label first])).
    eapply NoDup_Permutation_proper; [|exact Hnd].
    rewrite fmap_cons. symmetry. apply Permutation_cons_append.
  - rewrite column_increment. exists (length rest), (Num 1).
    split; [|by right]. f_equal.
    destruct m as [|m].
    + injection Hcol as _ Hrest. by destruct rest.
    + injection Hcol as -> Hrest.
      rewrite <- (length_fmap cdf rest). fold (column rest).
      generalize (column rest). intros l.
      induction l as [|x l IH]; [done|].
      rewrite fmap_cons, IH, fsub_NaN. done.
Qed.

Lemma increments_profile_blank (n : nat) (profile : list row) :
  blank profile →
  ∃ profile', increments_profile n profile = Ok profile' ∧ blank profile'.
Proof.
  revert profile. induction n as [|n IH]; intros profile Hb; [by exists profile|].
  destruct (increment_profile_blank _ Hb) as (p1 & Hinc & Hb1).
  destruct (IH _ Hb1) as (p' & Hincs & Hb').
  exists p'. cbn [increments_profile]. by rewrite Hinc.
Qed.

Lemma cumsum_from_NaN (acc : float64) (m : nat) :
  cumsum_from acc (replicate m NaN) = replicate m NaN.
Proof. induction m as [|m IH]; simpl; [done|]. by rewrite IH. Qed.

Lemma Qsum_replicate (k : nat) (q : Q) :
  (Qsum (replicate k q) == inject_Z (Z.of_nat k) * q)%Q.
Proof.
  induction k as [|k IH].
  - change (0 == 0 * q)%Q. lra.
  - cbn [replicate]. rewrite Qsum_cons, IH, Nat2Z.inj_succ.
    unfold Z.succ. rewrite inject_Z_plus. change (inject_Z 1) with 1%Q. ring.
Qed.

Lemma Qsum_upsampled (k : nat) (qs : list Q) :
  (Qsum (qs ≫= replicate k) == inject_Z (Z.of_nat k) * Qsum qs)%Q.
Proof.
  induction qs as [|q qs IH].
  - change (0 == inject_Z (Z.of_nat k) * 0)%Q. ring.
  - rewrite bind_cons, Qsum_app, Qsum_replicate, IH, Qsum_cons. ring.
Qed.

Lemma upsampled_Num (k : nat) (qs : list Q) :
  (Num <$> qs) ≫= replicate k = Num <$> (qs ≫= replicate k).
Proof.
  induction qs as [|q qs IH]; [done|].
  rewrite fmap_cons, !bind_cons, fmap_app, IH, fmap_replicate. done.
Qed.

Lemma Qsum_zero (qs : list Q) :
  Forall (λ q, 0 <= q)%Q qs → (Qsum qs == 0)%Q → Forall (λ q, q == 0)%Q qs.
Proof.
  induction 1 as [|q qs Hq Hqs IH]; intros Hsum; [done|].
  rewrite Qsum_cons in Hsum. pose proof (Qsum_nonneg _ Hqs).
  constructor; [lra|]. apply IH. lra.
Qed.

Lemma cumsum_from_length (acc : float64) (l : list float64) :
  length (cumsum_from acc l) = length l.
Proof.
  revert acc. induction l as [|x l IH]; intros acc; simpl; [done|].
  destruct (isnan x); simpl; by rewrite IH.
Qed.

Lemma upsampled_length {A} (k : nat) (l : list A) :
  length (l ≫= replicate k) = (length l * k)%nat.
Proof.
  induction l as [|x l IH]; [done|].
  rewrite bind_cons, length_app, length_replicate, IH. simpl. lia.
Qed.

Section Constructor.
Context {RS : Type} `{!RandomState RS}.
Variable Timedelta : string → option Z.

Lemma init_covered (fuel : nat) (clock : Clock.t RS) (store : list (t RS))
    (seed : Z) (config : CyclicTimerProfile.t) (phase : Z) (qs : list Q) :
  covered Timedelta clock config phase qs →
  let k := Z.to_nat (phase `div` Clock.step_s clock) in
  let ser := qs ≫= replicate k in
  let col := cumsum ((λ w, fdiv w (Num (Qsum ser))) <$> (Num <$> ser)) in
  (1 ≤ k)%nat ∧ length col = cycle_steps clock config phase ∧ col ≠ [] ∧
  init Timedelta fuel clock store seed config =
    do profile <- align fuel (Clock.current_date clock)
                    (frame (cycle_start clock config phase) (Clock.step_s clock) col);
    Ok (length store,
        Clock.register_increment_listener clock (length store),
        store ++ [{| state := RandomState_seed seed; profile := profile |}]).
Proof.
  intros [Hphase Hstep Hpos Hdiv Hgrid Hws Hne Hdate] k ser col.
  assert (Hk : (1 ≤ k)%nat).
  { unfold k. apply Z.div_exact in Hdiv; [|lia].
    assert (0 < phase `div` Clock.step_s clock) by nia. lia. }
  assert (Hlen : length col = cycle_steps clock config phase).
  { unfold col, cumsum, ser, cycle_steps.
    rewrite cumsum_from_length, !length_fmap, upsampled_length, Hws, length_fmap.
    done. }
  split; [done|]. split; [done|]. split.
  { intros Hcol. rewrite Hcol in Hlen. unfold cycle_steps in Hlen.
    rewrite Hws, length_fmap in Hlen. destruct qs; [done|]. simpl in Hlen. nia. }
  unfold init. rewrite Hphase.
  rewrite decide_True.
  2:{ split; [done|]. split; [|done]. rewrite Hws, length_fmap.
      destruct qs; [done|]. simpl length. nia. }
  fold (cycle_start clock config phase). rewrite decide_True by done.
  rewrite Hws. fold k.
  rewrite resample_profile; [|done|].
  2:{ apply Forall_fmap, Forall_forall. by intros q _. }
  rewrite upsampled_Num, series_sum_Num. done.
Qed.

Lemma upsampled_Forall (P : Q → Prop) (k : nat) (qs : list Q) :
  Forall P qs → Forall P (qs ≫= replicate k).
Proof.
  intros Hqs. apply Forall_forall. intros q Hq.
  apply list_elem_of_bind in Hq as (y & Hq & Hy).
  apply elem_of_replicate in Hq as [-> _].
  by eapply Forall_forall in Hqs.
Qed.

Lemma increments_profile_length (n : nat) (profile profile' : list row) :
  increments_profile n profile = Ok profile' → length profile' = length profile.
Proof.
  revert profile. induction n as [|n IH]; intros profile; [by intros [= <-]|].
  cbn [increments_profile].
  destruct (increment_profile profile) as [p1| | |] eqn:Hinc; [|done..].
  cbn [bind]. intros Hincs. apply IH in Hincs.
  apply increment_profile_shape in Hinc as [Hlen _]. congruence.
Qed.

(** In the exact arithmetic of the embedding, the constructor builds a
    generator that satisfies the invariant of the cumulative column, from
    weights that are not negative and whose sum is positive.  (With the
    rounding of doubles the running sum can end beside 1; the first
    rotation sets the last row to 1.) *)
Lemma init_cumulative (fuel : nat) (clock : Clock.t RS) (store : list (t RS))
    (seed : Z) (config : CyclicTimerProfile.t) (phase : Z) (qs : list Q) :
  covered Timedelta clock config phase qs →
  Forall (λ q, 0 <= q)%Q qs → (0 < Qsum qs)%Q →
  (cycle_steps clock config phase ≤ fuel)%nat →
  ∃ self,
    init Timedelta fuel clock store seed config
    = Ok (length store,
          Clock.register_increment_listener clock (length store),
          store ++ [self]) ∧
    cumulative (profile self).
Proof.
  intros Hcov Hqs Hsum Hfuel.
  destruct (init_covered fuel clock store seed config phase qs Hcov)
    as (Hk & Hlen & Hcol & ->).
  set (k := Z.to_nat (phase `div` Clock.step_s clock)) in *.
  set (ser := qs ≫= replicate k) in *.
  set (total := Qsum ser) in *.
  set (col := cumsum _) in *.
  assert (Htotal : (0 < total)%Q).
  { unfold total, ser. rewrite Qsum_upsampled.
    assert (1 <= inject_Z (Z.of_nat k))%Q
      by (change 1%Q with (inject_Z 1); rewrite <- Zle_Qle; lia).
    nra. }
  assert (Hnorm : (λ w, fdiv w (Num total)) <$> (Num <$> ser)
                  = Num <$> ((λ q, q / total)%Q <$> ser)).
  { rewrite <- !list_fmap_compose. apply list_fmap_ext. intros i q _. simpl.
    destruct (Qeq_bool total 0) eqn:Heq; [|done].
    apply Qeq_bool_iff in Heq. lra. }
  assert (Hcolq : col = Num <$> Qcumsum_from 0 ((λ q, q / total)%Q <$> ser)).
  { unfold col, cumsum. rewrite Hnorm. apply cumsum_from_Num. }
  assert (Hser : Forall (λ q, 0 <= q)%Q ((λ q, q / total)%Q <$> ser)).
  { apply Forall_fmap. eapply Forall_impl; [by apply upsampled_Forall|].
    intros q Hq. cbv beta in *. apply Qle_shift_div_l; lra. }
  assert (Hwf : cumulative (frame (cycle_start clock config phase)
                                  (Clock.step_s clock) col)).
  { destruct ((λ q, q / total)%Q <$> ser) as [|x xs] eqn:Hxs.
    { rewrite Hcolq in Hcol. done. }
    pose proof (Qcumsum_from_nondecreasing 0 _ Hser) as Hsorted.
    destruct (Qcumsum_from_last 0 (x :: xs)) as (l & Hl & Hleq).
    rewrite <- Hxs, Qsum_scale in Hleq. fold total in Hleq.
    apply Forall_cons in Hser as [Hx _].
    eapply (cumulative_intro _ (0 + x)%Q (Qcumsum_from (0 + x)%Q xs)).
    - apply frame_NoDup, Hcov.
    - by rewrite frame_column, Hcolq.
    - by eapply Qnondecreasing_tail.
    - lra.
    - exists l. split; [exact Hl|]. rewrite Hleq. field. lra. }
  destruct (align_frame (cycle_start clock config phase) (Clock.step_s clock)
              (Clock.current_date clock) col fuel)
    as (j & _ & ->); [apply Hcov|done|rewrite Hlen; apply Hcov|lia|].
  destruct (increments_profile_cumulative j _ Hwf) as (p' & -> & Hwf').
  eexists. split; [reflexivity|]. exact Hwf'.
Qed.

(** C7, as the code has it.  For a profile that the embedding covers and
    whose weights, none of them negative, sum to zero, the constructor
    raises nothing: the normalisation divides 0 by 0, the cumulative column
    holds NaN in every row (a rotation of the alignment closes it with 1 in
    the last one), and the generator is built and registered as a listener
    of the clock. *)
Theorem init_zero_sum (fuel : nat) (clock : Clock.t RS) (store : list (t RS))
    (seed : Z) (config : CyclicTimerProfile.t) (phase : Z) (qs : list Q) :
  covered Timedelta clock config phase qs →
  Forall (λ q, 0 <= q)%Q qs →
  feqb (series_sum (CyclicTimerProfile.profile config)) (Num 0) = true →
  (cycle_steps clock config phase ≤ fuel)%nat →
  ∃ self,
    init Timedelta fuel clock store seed config
    = Ok (length store,
          Clock.register_increment_listener clock (length store),
          store ++ [self]) ∧
    length (profile self) = cycle_steps clock config phase ∧
    ∃ m c, column (profile self) = replicate m NaN ++ [c] ∧
           (c = NaN ∨ c = Num 1).
Proof.
  intros Hcov Hqs Hsum Hfuel.
  rewrite (covered_weights _ _ _ _ _ Hcov), series_sum_Num in Hsum.
  apply feqb_Num in Hsum.
  destruct (init_covered fuel clock store seed config phase qs Hcov)
    as (Hk & Hlen & Hcol & ->).
  set (k := Z.to_nat (phase `div` Clock.step_s clock)) in *.
  set (ser := qs ≫= replicate k) in *.
  set (total := Qsum ser) in *.
  set (col := cumsum _) in *.
  assert (Htotal : (total == 0)%Q).
  { unfold total, ser. rewrite Qsum_upsampled, Hsum. ring. }
  assert (Hser : Forall (λ q, q == 0)%Q ser)
    by (by apply upsampled_Forall, Qsum_zero).
  assert (Hnorm : (λ w, fdiv w (Num total)) <$> (Num <$> ser)
                  = replicate (length ser) NaN).
  { apply Qeq_bool_iff in Htotal. clearbody total. clear -Htotal Hser.
    induction Hser as [|q ser Hq _ IH]; [done|].
    rewrite !fmap_cons, IH. simpl.
    apply Qeq_bool_iff in Hq. by rewrite Htotal, Hq. }
  assert (Hcoln : col = replicate (length ser) NaN).
  { unfold col, cumsum. rewrite Hnorm. apply cumsum_from_NaN. }
  assert (Hb : blank (frame (cycle_start clock config phase)
                            (Clock.step_s clock) col)).
  { split; [apply frame_NoDup, Hcov|].
    rewrite frame_column. rewrite Hcoln in Hcol |- *.
    destruct (length ser) as [|m]; [done|].
    exists m, NaN. split; [apply replicate_S_end|by left]. }
  destruct (align_frame (cycle_start clock config phase) (Clock.step_s clock)
              (Clock.current_date clock) col fuel)
    as (j & _ & ->); [apply Hcov|done|rewrite Hlen; apply Hcov|lia|].
  destruct (increments_profile_blank j _ Hb) as (p' & Hp' & _ & Hblank).
  rewrite Hp'. eexists. split; [reflexivity|]. simpl. split; [|exact Hblank].
  apply increments_profile_length in Hp'. by rewrite Hp', frame_length.
Qed.
End Constructor.

Lemma Example_idle_covered :
  covered Concrete.Timedelta Example.clock Example.idle 3600 [0; 0; 0]%Q.
Proof.
  split; try reflexivity; try discriminate.
Defined.

(** C7 at the clock of the concrete run and the profile without activity. *)
Lemma init_zero_sum_witness :
  (covered Concrete.Timedelta Example.clock Example.idle 3600 [0; 0; 0]%Q ∧
   Forall (λ q, 0 <= q)%Q [0; 0; 0]%Q ∧
   feqb (series_sum (CyclicTimerProfile.profile Example.idle)) (Num 0) = true ∧
   (cycle_steps Example.clock Example.idle 3600 ≤ 3)%nat) ∧
  ∃ self,
    init Concrete.Timedelta 3 Example.clock [] 7 Example.idle
    = Ok (0%nat, Clock.register_increment_listener Example.clock 0, [self]) ∧
    length (profile self) = 3%nat.
Proof.
  assert (Hqs : Forall (λ q, 0 <= q)%Q [0; 0; 0]%Q)
    by (repeat constructor; discriminate).
  assert (Hfuel : (cycle_steps Example.clock Example.idle 3600 ≤ 3)%nat)
    by (vm_compute; repeat constructor).
  split; [split; [exact Example_idle_covered|split; [exact Hqs|split; [reflexivity|exact Hfuel]]]|].
  destruct (init_zero_sum Concrete.Timedelta 3 Example.clock [] 7 Example.idle
              3600 [0; 0; 0]%Q Example_idle_covered Hqs eq_refl Hfuel)
    as (self & Hinit & Hlen & _).
  exists self. split; [exact Hinit | exact Hlen].
Defined.

(** C7 as the specification words it fails on the profile of three weights
    0: their sum is 0 and the constructor returns, with a generator whose
    cumulative column holds NaN in its three rows, registered as a listener
    of the clock. *)
Lemma init_accepts_zero_sum :
  feqb (series_sum (CyclicTimerProfile.profile Example.idle)) (Num 0) = true ∧
  (∃ self,
     init Concrete.Timedelta 0 Example.clock [] 7 Example.idle
     = Ok (0%nat, Clock.register_increment_listener Example.clock 0, [self]) ∧
     column (profile self) = [NaN; NaN; NaN]) ∧
  ¬ raises (init Concrete.Timedelta 0 Example.clock [] 7 Example.idle).
Proof.
  split; [reflexivity|]. split.
  - eexists. split; [vm_compute; reflexivity|reflexivity].
  - intros [e He]. vm_compute in He. discriminate.
Qed.

(** ** Persistence of a profile *)

Section PersistenceProperties.
Import CyclicTimerProfile.
Variable str_of_float : float64 → string.
Variable float_of_str : string → option float64.
Variable str_of_Timestamp : Z → string.
Variable Timestamp : string → option Z.

Lemma loc_set_fresh (k0 : string) (k1 : Z) (v : string) (df : list csv_row) :
  Forall (λ r, level0 r ≠ k0) df → loc_set k0 k1 v df = df ++ [(k0, k1, v)].
Proof.
  induction 1 as [|r df Hr _ IH]; [done|]. simpl.
  rewrite decide_False by (by intros [? _]). by rewrite IH.
Qed.




Lemma profile_rows_level0 (weights : list float64) :
  Forall (λ r, level0 r = "profile"%string) (profile_rows str_of_float weights).
Proof.
  apply Forall_forall. intros r Hr.
  apply elem_of_lookup_imap in Hr as (i & w & -> & _). done.
Qed.


(** The frame that [save_to] writes: the rows of the weights, then the row
    of the anchor date and the row of the duration of a phase. *)
Lemma save_to_file (self : t) (file_path : string)
    (fs : gmap string (list csv_row)) :
  save_to str_of_float str_of_Timestamp self file_path fs !! file_path
  = Some (profile_rows str_of_float (profile self)
            ++ [("start_date"%string, 0, str_of_Timestamp (start_date self))]
            ++ [("profile_time_steps"%string, 0, profile_time_steps self)]).
Proof.
  unfold save_to. rewrite lookup_insert_eq. f_equal.
  fold (profile_rows str_of_float (profile self)).
  rewrite (loc_set_fresh "start_date").
  2:{ eapply Forall_impl; [apply profile_rows_level0|]. by intros r ->. }
  rewrite (loc_set_fresh "profile_time_steps"); [by rewrite <- (assoc_L (++))|].
  apply Forall_app. split; [|by repeat constructor].
  eapply Forall_impl; [apply profile_rows_level0|]. by intros r ->.
Qed.

End PersistenceProperties.

(** The concrete conversions keep the contract. *)
Lemma Text_read_bits_bits (p : positive) (rest : string) :
  Text.read_bits None (Text.bits p rest) = Text.read_bits (Some p) rest.
Proof.
  revert rest. induction p as [p IH|p IH|]; intros rest; simpl; [| |done].
  - by rewrite IH.
  - by rewrite IH.
Qed.

Lemma Text_bits_head (p : positive) (rest : string) :
  ∃ tail, Text.bits p rest = String "1" tail.
Proof.
  revert rest. induction p as [p IH|p IH|]; intros rest; simpl; eauto.
Qed.

Lemma Text_read_Z_of_Z (z : Z) (rest : string) :
  (∀ p, Text.read_bits (Some p) rest = (Some p, rest)) →
  Text.read_Z (Text.of_Z z rest) = Some (z, rest).
Proof.
  intros Hstop. destruct z as [|p|p]; [done| |].
  - unfold Text.of_Z, Text.read_Z.
    destruct (Text_bits_head p rest) as [tail Htail].
    destruct (Text.bits p rest) as [|c s'] eqn:Hbits; [done|].
    injection Htail as -> ->. simpl Ascii.eqb. cbv iota.
    by rewrite <- Hbits, Text_read_bits_bits, Hstop.
  - unfold Text.of_Z, Text.read_Z. simpl Ascii.eqb. cbv iota.
    by rewrite Text_read_bits_bits, Hstop.
Qed.

Lemma Text_to_Timestamp_of_Timestamp (date : Z) :
  Text.to_Timestamp (Text.of_Timestamp date) = Some date.
Proof.
  unfold Text.to_Timestamp, Text.of_Timestamp.
  by rewrite Text_read_Z_of_Z.
Qed.

Lemma Text_to_float_of_float (w : float64) :
  Text.to_float (Text.of_float w) = Some w.
Proof.
  destruct w as [[n d]| | |]; [|done..].
  unfold Text.to_float, Text.of_float. cbn [Qnum Qden].
  rewrite !decide_False by done. simpl Ascii.eqb. cbv iota.
  rewrite Text_read_Z_of_Z by done.
  simpl Ascii.eqb. cbv iota.
  by rewrite Text_read_bits_bits.
Qed.

#[local] Instance Text_conversions : TextConversions := {|
  text_of_float := Text.of_float;
  float_of_text := Text.to_float;
  text_of_Timestamp := Text.of_Timestamp;
  Timestamp_of_text := Text.to_Timestamp;
  float_of_text_of_float := Text_to_float_of_float;
  Timestamp_of_text_of_Timestamp := Text_to_Timestamp_of_Timestamp
|}.




(** * Further properties of the code *)

(** ** Rotations *)

Lemma rotate1_lookup {A} (l : list A) (i : nat) :
  (i < length l)%nat → rotate1 l !! i = l !! ((i + 1) mod length l)%nat.
Proof.
  intros Hi. destruct l as [|x l]; [simpl in Hi; lia|].
  rewrite rotate1_cons. simpl length in *.
  destruct (decide (i = length l)) as [->|Hne].
  - rewrite lookup_app_r by lia. rewrite Nat.sub_diag.
    replace (length l + 1)%nat with (S (length l)) by lia.
    by rewrite Nat.Div0.mod_same.
  - rewrite lookup_app_l by lia.
    rewrite Nat.mod_small by lia. by rewrite Nat.add_1_r.
Qed.

Lemma increments_profile_lookup (n : nat) (profile profile' : list row) (i : nat) :
  increments_profile n profile = Ok profile' →
  (i < length profile)%nat →
  (label <$> profile') !! i
    = (label <$> profile) !! ((i + n) mod length profile)%nat ∧
  (timeframe <$> profile') !! i
    = (timeframe <$> profile) !! ((i + n) mod length profile)%nat.
Proof.
  revert profile i. induction n as [|n IH]; intros profile i Hincs Hi.
  - injection Hincs as <-. by rewrite Nat.add_0_r, Nat.mod_small.
  - cbn [increments_profile] in Hincs.
    destruct (increment_profile profile) as [p1| | |] eqn:Hinc; [|done..].
    cbn [bind] in Hincs.
    apply increment_profile_shape in Hinc as (Hlen & Hlabel & Htf).
    destruct (IH p1 i Hincs) as [IHl IHt]; [lia|].
    rewrite IHl, IHt, Hlabel, Htf, Hlen.
    assert (Hlt : ((i + n) mod length profile < length profile)%nat)
      by (apply Nat.mod_upper_bound; lia).
    rewrite !rotate1_lookup by (by rewrite length_fmap).
    rewrite !length_fmap, Nat.Div0.add_mod_idemp_l.
    by replace (i + n + 1)%nat with (i + S n)%nat by lia.
Qed.

Section Rotations.
Context {RS : Type} `{!RandomState RS}.
Implicit Types self : t RS.

(** [increment] raises, an [IndexError], exactly on a frame without rows;
    on any other frame it returns, keeps the random stream of the generator
    and moves the first label of the index to the end with its row. *)
Theorem increment_raises_iff_empty self :
  (profile self = [] → increment self = Raises IndexError) ∧
  (profile self ≠ [] →
   ∃ self', increment self = Ok self' ∧
            state self' = state self ∧
            label <$> profile self'
            = drop 1 (label <$> profile self) ++ take 1 (label <$> profile self)) ∧
  (raises (increment self) → profile self = []).
Proof.
  split; [|split].
  - intros Hnil. rewrite increment_unfold, Hnil. done.
  - intros Hne. destruct (increment_profile_is_Ok _ Hne) as [p' Hinc].
    exists {| state := state self; profile := p' |}.
    rewrite increment_unfold, Hinc. simpl. split; [done|]. split; [done|].
    by apply increment_profile_shape in Hinc as (_ & -> & _).
  - intros [e He]. destruct (profile self) as [|first rest] eqn:Hp; [done|].
    destruct (increment_profile_is_Ok (first :: rest)) as [p' Hinc]; [done|].
    rewrite increment_unfold, Hp, Hinc in He. done.
Qed.

(** After [n] calls to [increment], for any [n], row [i] of the frame holds
    the label and the [timeframe] that row [(i + n) mod cycle_length] held
    before them. *)
Theorem increments_rotate_by_n (n : nat) self self' (i : nat) :
  increments n self = Ok self' →
  (i < length (profile self))%nat →
  (label <$> profile self') !! i
    = (label <$> profile self) !! ((i + n) mod length (profile self))%nat ∧
  (timeframe <$> profile self') !! i
    = (timeframe <$> profile self) !! ((i + n) mod length (profile self))%nat.
Proof.
  rewrite increments_unfold.
  destruct (increments_profile n (profile self)) as [p'| | |] eqn:Hincs; [|done..].
  intros [= <-]. simpl. by apply increments_profile_lookup.
Qed.
End Rotations.

(** Seven rotations of the four rows of the concrete run: row 0 holds what
    row 3 held. *)
Lemma increments_rotate_by_n_witness :
  ∃ self',
    increments 7 Example.generator = Ok self' ∧
    (timeframe <$> profile self') !! 0%nat = Some 3%nat.
Proof.
  destruct (increments 7 Example.generator) as [self'| | |] eqn:Hincs;
    [|vm_compute in Hincs; discriminate..].
  exists self'. split; [reflexivity|].
  destruct (increments_rotate_by_n 7 Example.generator self' 0 Hincs) as [_ Htf].
  - repeat constructor.
  - exact Htf.
Defined.

Lemma Qnondecreasing_bounds (x : Q) (qs : list Q) (l : Q) :
  Qnondecreasing (x :: qs) → last (x :: qs) = Some l →
  Forall (λ q, x <= q ∧ q <= l)%Q (x :: qs).
Proof.
  revert x. induction qs as [|y qs IH]; intros x Hsorted Hlast.
  - injection Hlast as <-. constructor; [lra|constructor].
  - destruct Hsorted as [Hxy Hsorted]. rewrite last_cons_cons in Hlast.
    specialize (IH y Hsorted Hlast).
    assert (Hyl : (y <= l)%Q) by (apply Forall_cons in IH as [[_ ?] _]; lra).
    constructor; [lra|].
    eapply Forall_impl; [exact IH|]. intros q [? ?]. simpl. lra.
Qed.

Lemma cumulative_in_unit (profile : list row) :
  cumulative profile → Forall (λ c, in_unit c = true) (column profile).
Proof.
  intros Hwf.
  destruct (cumulative_inv _ Hwf)
    as (first & rest & q0 & qs & -> & Hfirst & Hrest & _ & Hsorted & Hq0
        & q & Hlast & Hq).
  assert (Hcol : column (first :: rest) = Num <$> q0 :: qs).
  { unfold column in *. by rewrite !fmap_cons, Hfirst, Hrest. }
  rewrite Hcol. apply Forall_fmap.
  eapply Forall_impl; [by apply Qnondecreasing_bounds|].
  intros c [Hc0 Hc1]. simpl. unfold in_unit.
  apply andb_true_iff. split; apply fleb_Num; lra.
Qed.

Section RotationsOfCumulative.
Context {RS : Type} `{!RandomState RS}.
Implicit Types self : t RS.

(** The invariant of the cumulative column is kept by any number of
    rotations, and with it every cumulative probability stays between 0
    and 1. *)
Theorem increments_keep_probabilities (n : nat) self :
  cumulative (profile self) →
  ∃ self',
    increments n self = Ok self' ∧
    cumulative (profile self') ∧
    Forall (λ c, in_unit c = true) (column (profile self')).
Proof.
  intros Hwf.
  destruct (increments_profile_cumulative n _ Hwf) as (p' & Hincs & Hwf').
  exists {| state := state self; profile := p' |}.
  rewrite increments_unfold, Hincs. simpl.
  split; [done|]. split; [done|]. by apply cumulative_in_unit.
Qed.
End RotationsOfCumulative.

Lemma increments_keep_probabilities_witness :
  ∃ self',
    increments 9 Example.generator = Ok self' ∧
    cumulative (profile self') ∧
    Forall (λ c, in_unit c = true) (column (profile self')).
Proof.
  exact (increments_keep_probabilities 9 Example.generator
           Example_generator_cumulative).
Defined.

Lemma increment_raises_iff_empty_witness :
  profile Example.generator ≠ [] ∧
  ∃ self', increment Example.generator = Ok self' ∧
           label <$> profile self'
           = [1577840400; 1577844000; 1577847600; 1577836800].
Proof.
  split; [discriminate|].
  destruct (increment_raises_iff_empty Example.generator) as (_ & Hok & _).
  destruct Hok as (self' & Hinc & _ & Hlabel); [discriminate|].
  exists self'. split; [exact Hinc | exact Hlabel].
Defined.

(** ** Sampling at the edges *)

Lemma searchsorted_lt_length (a : list float64) (v c : float64) :
  c ∈ a → np_less c v = false → (searchsorted a v < length a)%nat.
Proof.
  intros Hc Hless. induction a as [|x a IH]; [by apply elem_of_nil in Hc|].
  simpl. destruct (np_less x v) eqn:Hx; [|lia].
  apply elem_of_cons in Hc as [->|Hc]; [congruence|].
  specialize (IH Hc). lia.
Qed.

Lemma searchsorted_split (qs : list Q) (p : Q) :
  Qnondecreasing qs →
  let k := searchsorted (Num <$> qs) (Num p) in
  Forall (λ q, q < p)%Q (take k qs) ∧ Forall (λ q, p <= q)%Q (drop k qs).
Proof.
  induction qs as [|x qs IH]; intros Hsorted; [by split|].
  cbn [fmap list_fmap searchsorted].
  fold (fmap (M:=list) Num qs).
  destruct (np_less (Num x) (Num p)) eqn:Hx.
  - apply np_less_Num in Hx.
    destruct (IH (Qnondecreasing_tail _ _ Hsorted)) as [Hlt Hge].
    split; [apply Forall_cons_2; [exact Hx|exact Hlt]|exact Hge].
  - assert (Hpx : (p <= x)%Q).
    { destruct (Qlt_le_dec x p) as [Hlt|]; [|done].
      apply np_less_Num in Hlt. congruence. }
    split; [constructor|]. simpl.
    assert (Hl : ∃ l, last (x :: qs) = Some l)
      by (rewrite last_cons; destruct (last qs); eauto).
    destruct Hl as [l Hl].
    eapply Forall_impl; [by eapply Qnondecreasing_bounds|].
    intros q [? _]. simpl. lra.
Qed.

Lemma Qdiv_le_numerator (r o : Q) : (0 <= r)%Q → (1 <= o)%Q → (r / o <= r)%Q.
Proof. intros Hr Ho. apply Qle_shift_div_r; [lra|nra]. Qed.

Lemma Qdiv_negative (r o : Q) : (0 <= r)%Q → (o < 0)%Q → (r / o <= 0)%Q.
Proof.
  intros Hr Ho.
  assert (H1 : (0 <= r / - o)%Q) by (apply Qle_shift_div_l; lra).
  assert (H2 : (r / o == - (r / - o))%Q) by (field; lra).
  lra.
Qed.

Section GenerateEdges.
Context {RS : Type} `{!RandomState RS}.
Implicit Types self : t RS.

(** What [generate] returns at a position: the search of the draw made for
    it, divided by the observation. *)
Lemma generate_lookup self (observations : list float64) (i : nat) (o : float64) :
  observations !! i = Some o →
  ∃ waits self' r,
    generate self observations = Ok (waits, self') ∧
    (0 <= r)%Q ∧ (r < 1)%Q ∧
    waits !! i = Some (searchsorted (column (profile self)) (fdiv (Num r) o)).
Proof.
  intros Ho. rewrite generate_unfold.
  destruct (uniform_spec (state self) (length observations)) as [Hlen Hall].
  destruct (lookup_lt_is_Some_2 (uniform (state self) (length observations)).1 i)
    as [r Hr]; [rewrite Hlen; by eapply lookup_lt_Some|].
  eexists _, _, r. split; [reflexivity|].
  eapply Forall_lookup_1 in Hall as [Hr0 Hr1]; [|exact Hr].
  split; [done|]. split; [done|]. by apply wait_times_lookup.
Qed.

(** An observation of 1 or more is answered within the cycle: on a frame
    that satisfies the invariant its wait is below the number of rows. *)
Theorem generate_within_cycle self (observations : list float64) (i : nat) (o : Q) :
  cumulative (profile self) →
  observations !! i = Some (Num o) → (1 <= o)%Q →
  ∃ waits self' w,
    generate self observations = Ok (waits, self') ∧
    waits !! i = Some w ∧ (w < length (profile self))%nat.
Proof.
  intros Hwf Ho Ho1.
  destruct (generate_lookup self observations i _ Ho)
    as (waits & self' & r & Hgen & Hr0 & Hr1 & Hw).
  eexists _, _, _. split; [exact Hgen|]. split; [exact Hw|].
  destruct Hwf as [_ Hfin _ _ (c & Hlast & Hc)].
  rewrite <- (length_fmap cdf). fold (column (profile self)).
  assert (Hcin : c ∈ column (profile self)) by (by eapply last_Some_elem_of).
  apply (searchsorted_lt_length _ _ c); [done|].
  rewrite fdiv_Num by lra.
  destruct (proj1 (Forall_forall _ _) Hfin c Hcin) as [q ->].
  apply feqb_Num in Hc. apply not_true_is_false. rewrite np_less_Num.
  pose proof (Qdiv_le_numerator r o Hr0 Ho1). lra.
Qed.

(** A negative observation is not refused either: on a frame that satisfies
    the invariant its wait is 0. *)
Theorem generate_negative_observation self (observations : list float64)
    (i : nat) (o : Q) :
  cumulative (profile self) →
  observations !! i = Some (Num o) → (o < 0)%Q →
  ∃ waits self',
    generate self observations = Ok (waits, self') ∧
    waits !! i = Some 0%nat.
Proof.
  intros Hwf Ho Ho0.
  destruct (generate_lookup self observations i _ Ho)
    as (waits & self' & r & Hgen & Hr0 & Hr1 & Hw).
  eexists _, _. split; [exact Hgen|]. rewrite Hw. f_equal.
  destruct (cumulative_inv _ Hwf)
    as (first & rest & q0 & qs & -> & Hfirst & _ & _ & _ & Hq0 & _).
  unfold column. rewrite fmap_cons, Hfirst, fdiv_Num by lra.
  cbn [searchsorted].
  assert (Hless : np_less (Num q0) (Num (r / o)) = false).
  { apply not_true_is_false. rewrite np_less_Num.
    pose proof (Qdiv_negative r o Hr0 Ho0). lra. }
  by rewrite Hless.
Qed.

(** On a frame whose cumulative values are all NaN, as the constructor
    builds it for weights that sum to zero when the clock stands at the
    start of the cycle, every wait is 0. *)
Theorem generate_on_NaN self (observations : list float64) :
  Forall (λ c, c = NaN) (column (profile self)) →
  ∃ waits self',
    generate self observations = Ok (waits, self') ∧
    waits = replicate (length observations) 0%nat.
Proof.
  intros Hall. rewrite generate_unfold. eexists _, _. split; [reflexivity|].
  destruct (uniform_spec (state self) (length observations)) as [Hlen _].
  apply list_eq. intros i.
  destruct (decide (i < length observations)%nat) as [Hi|Hi].
  - destruct (lookup_lt_is_Some_2 observations i Hi) as [o Ho].
    destruct (lookup_lt_is_Some_2 (uniform (state self) (length observations)).1 i)
      as [r Hr]; [by rewrite Hlen|].
    rewrite (wait_times_lookup _ _ _ _ _ _ Hr Ho).
    rewrite lookup_replicate_2 by done. f_equal.
    destruct (column (profile self)) as [|c col]; [done|].
    apply Forall_cons in Hall as [-> _]. cbn [searchsorted].
    replace (np_less NaN (fdiv (Num r) o)) with false; [done|].
    by destruct (fdiv (Num r) o).
  - rewrite (proj1 (lookup_replicate_None _ _ _)) by lia.
    apply lookup_ge_None. rewrite wait_times_length by done. lia.
Qed.
End GenerateEdges.

(** The wait is the smallest index whose cumulative probability is not
    below [p = r / o]: on a frame that satisfies the invariant, the rows
    before it are below [p] and the rows from it on are at or above [p]. *)
Theorem generate_smallest_index (profile : list row) (r o : Q) :
  cumulative profile → (0 < o)%Q →
  ∃ k,
    wait_times profile [r] [Num o] = [k] ∧
    Forall (λ c, fltb c (Num (r / o)) = true) (take k (column profile)) ∧
    Forall (λ c, fleb (Num (r / o)) c = true) (drop k (column profile)).
Proof.
  intros Hwf Ho. eexists. split; [reflexivity|].
  rewrite fdiv_Num by lra.
  destruct (cumulative_inv _ Hwf)
    as (first & rest & q0 & qs & -> & Hfirst & Hrest & _ & Hsorted & _).
  assert (Hcol : column (first :: rest) = Num <$> q0 :: qs).
  { unfold column in *. by rewrite !fmap_cons, Hfirst, Hrest. }
  fold (column (first :: rest)). rewrite Hcol.
  destruct (searchsorted_split (q0 :: qs) (r / o) Hsorted) as [Hlt Hge].
  rewrite <- fmap_take, <- fmap_drop. split; apply Forall_fmap.
  - eapply Forall_impl; [exact Hlt|]. intros q Hq. by apply fltb_Num.
  - eapply Forall_impl; [exact Hge|]. intros q Hq. by apply fleb_Num.
Qed.

Lemma Example_idle_generator_built :
  init Concrete.Timedelta 0 Example.clock [] 7 Example.idle
  = Ok (0%nat, Clock.register_increment_listener Example.clock 0,
        [Example.idle_generator]).
Proof. vm_compute. reflexivity. Qed.

Lemma generate_within_cycle_witness :
  (cumulative (profile Example.generator) ∧
   [Num 1; Num 2] !! 1%nat = Some (Num 2) ∧ (1 <= 2)%Q) ∧
  ∃ waits self' w,
    generate Example.generator [Num 1; Num 2] = Ok (waits, self') ∧
    waits !! 1%nat = Some w ∧ (w < 4)%nat.
Proof.
  assert (H12 : (1 <= 2)%Q) by discriminate.
  split; [split; [exact Example_generator_cumulative|split; [reflexivity|exact H12]]|].
  exact (generate_within_cycle Example.generator [Num 1; Num 2] 1 2
           Example_generator_cumulative eq_refl H12).
Defined.

Lemma generate_negative_observation_witness :
  (cumulative (profile Example.generator) ∧
   [Num (-1)] !! 0%nat = Some (Num (-1)) ∧ (-1 < 0)%Q) ∧
  ∃ waits self',
    generate Example.generator [Num (-1)] = Ok (waits, self') ∧
    waits !! 0%nat = Some 0%nat.
Proof.
  split; [split; [exact Example_generator_cumulative|split; reflexivity]|].
  exact (generate_negative_observation Example.generator [Num (-1)] 0 (-1)
           Example_generator_cumulative eq_refl eq_refl).
Defined.

Lemma generate_on_NaN_witness :
  Forall (λ c, c = NaN) (column (profile Example.idle_generator)) ∧
  ∃ waits self',
    generate Example.idle_generator [Num 1; Num 2; Num 3] = Ok (waits, self') ∧
    waits = [0; 0; 0]%nat.
Proof.
  assert (Hall : Forall (λ c, c = NaN) (column (profile Example.idle_generator)))
    by (repeat constructor).
  split; [exact Hall|].
  exact (generate_on_NaN Example.idle_generator [Num 1; Num 2; Num 3] Hall).
Defined.

Lemma generate_smallest_index_witness :
  (cumulative (profile Example.generator) ∧ (0 < 1)%Q) ∧
  ∃ k,
    wait_times (profile Example.generator) [1 # 2] [Num 1] = [k] ∧
    Forall (λ c, fltb c (Num ((1 # 2) / 1)) = true)
           (take k (column (profile Example.generator))) ∧
    Forall (λ c, fleb (Num ((1 # 2) / 1)) c = true)
           (drop k (column (profile Example.generator))).
Proof.
  split; [split; [exact Example_generator_cumulative|reflexivity]|].
  exact (generate_smallest_index (profile Example.generator) (1 # 2) 1
           Example_generator_cumulative eq_refl).
Defined.

(** ** The alignment of the constructor *)

Lemma frame_timeframe (init_date step : Z) (col : list float64) :
  timeframe <$> frame init_date step col = seq 0 (length col).
Proof.
  unfold frame. rewrite fmap_imap.
  etrans; [exact (imap_seq_0 col (λ i, i))|]. apply list_fmap_id.
Qed.

Lemma increments_profile_is_Ok (n : nat) (profile : list row) :
  profile ≠ [] → ∃ profile', increments_profile n profile = Ok profile'.
Proof.
  revert profile. induction n as [|n IH]; intros profile Hne; [by exists profile|].
  destruct (increment_profile_is_Ok _ Hne) as [p1 Hinc].
  cbn [increments_profile]. rewrite Hinc. cbn [bind]. apply IH.
  apply increment_profile_shape in Hinc as [Hlen _].
  intros ->. by destruct profile.
Qed.

(** The rotations that the alignment loop makes: as many as there are steps
    of the cycle before the date of the clock. *)
Lemma align_frame_steps (init_date step current_date : Z) (col : list float64)
    (fuel : nat) :
  0 < step → col ≠ [] →
  current_date ≤ init_date + Z.of_nat (length col) * step - step →
  (length col ≤ fuel)%nat →
  ∃ j, (j < length col)%nat ∧
       align fuel current_date (frame init_date step col)
       = increments_profile j (frame init_date step col) ∧
       current_date ≤ init_date + Z.of_nat j * step ∧
       ∀ i, (i < j)%nat → init_date + Z.of_nat i * step < current_date.
Proof.
  intros Hstep Hcol Hdate Hfuel.
  set (d := current_date - init_date).
  set (e := (d + step - 1) `div` step).
  assert (Hn : (0 < length col)%nat) by (destruct col; [done|simpl; lia]).
  set (n := length col) in *.
  assert (He1 : step * e ≤ d + step - 1) by (apply Z.mul_div_le; lia).
  assert (He2 : d + step - 1 < step * Z.succ e) by (apply Z.mul_succ_div_gt; lia).
  assert (He3 : e < Z.of_nat n).
  { apply Z.div_lt_upper_bound; [lia|]. unfold d. nia. }
  set (j := Z.to_nat e).
  assert (Hj : (j < n)%nat) by lia.
  set (f := λ i : nat, init_date + Z.of_nat i * step).
  assert (Hbefore : ∀ i, (i < j)%nat → f i < current_date)
    by (intros i Hi; unfold f, d in *; nia).
  assert (Hat : current_date ≤ f j) by (unfold f, d in *; nia).
  exists j. split; [done|]. split; [|by split].
  assert (Hlabel : label <$> frame init_date step col
                   = (f <$> seq 0 j) ++ f j :: (f <$> seq (S j) (n - S j))).
  { rewrite frame_label. fold n f.
    replace n with (j + S (n - S j))%nat at 1 by lia.
    rewrite seq_app, fmap_app. simpl. done. }
  pose proof (align_rotations _ _ _ current_date fuel _ Hlabel) as Halign.
  rewrite length_fmap, length_seq in Halign. apply Halign; [|done|lia].
  apply Forall_fmap, Forall_forall. intros i Hi.
  apply elem_of_seq in Hi. apply Hbefore. lia.
Qed.

(** When every label of the frame is before the date of the clock, the
    alignment loop never ends: the rotations only turn the same labels. *)
Theorem align_never_ends (fuel : nat) (current_date : Z) (profile : list row) :
  profile ≠ [] →
  Forall (λ l, l < current_date) (label <$> profile) →
  align fuel current_date profile = Diverges.
Proof.
  revert profile. induction fuel as [|fuel IH]; intros profile Hne Hall.
  - destruct profile as [|first rest]; [done|]. simpl.
    apply Forall_cons in Hall as [Hfirst _]. by rewrite decide_True.
  - destruct profile as [|first rest]; [done|].
    pose proof Hall as Hall'. apply Forall_cons in Hall' as [Hfirst _].
    cbn [align]. rewrite decide_True by done.
    destruct (increment_profile_is_Ok (first :: rest)) as [p' Hinc]; [done|].
    rewrite Hinc. cbn [bind].
    apply increment_profile_shape in Hinc as (Hlen & Hlabel & _).
    apply IH; [intros ->; done|].
    rewrite Hlabel. apply Forall_forall. intros l Hl.
    rewrite rotate1_perm in Hl. by eapply Forall_forall in Hall.
Qed.

Section Alignment.
Context {RS : Type} `{!RandomState RS}.
Variable Timedelta : string → option Z.

(** The constructor leaves the frame aligned on the clock: its first row is
    the first step of the cycle that is not before the date of the clock,
    and the [timeframe] of that row is the number of steps of the cycle
    that are before that date. *)
Theorem init_aligned (fuel : nat) (clock : Clock.t RS) (store : list (t RS))
    (seed : Z) (config : CyclicTimerProfile.t) (phase : Z) (qs : list Q) :
  covered Timedelta clock config phase qs →
  (cycle_steps clock config phase ≤ fuel)%nat →
  ∃ self first,
    init Timedelta fuel clock store seed config
    = Ok (length store,
          Clock.register_increment_listener clock (length store),
          store ++ [self]) ∧
    length (profile self) = cycle_steps clock config phase ∧
    head (profile self) = Some first ∧
    Clock.current_date clock ≤ label first ∧
    label first
    = cycle_start clock config phase
      + Z.of_nat (timeframe first) * Clock.step_s clock ∧
    (timeframe first < cycle_steps clock config phase)%nat ∧
    ∀ i, (i < timeframe first)%nat →
         cycle_start clock config phase + Z.of_nat i * Clock.step_s clock
         < Clock.current_date clock.
Proof.
  intros Hcov Hfuel.
  destruct (init_covered Timedelta fuel clock store seed config phase qs Hcov)
    as (Hk & Hlen & Hcol & ->).
  set (col := cumsum _) in *.
  set (init_date := cycle_start clock config phase) in *.
  set (step := Clock.step_s clock) in *.
  destruct (align_frame_steps init_date step (Clock.current_date clock) col fuel)
    as (j & Hj & -> & Hat & Hbefore);
    [apply Hcov|done|rewrite Hlen; apply Hcov|lia|].
  destruct (increments_profile_is_Ok j (frame init_date step col)) as [p' Hp'].
  { intros Hnil. apply (f_equal length) in Hnil.
    rewrite frame_length in Hnil. by destruct col. }
  rewrite Hp'. cbn [bind].
  pose proof (increments_profile_length _ _ _ Hp') as Hlen'.
  rewrite frame_length in Hlen'.
  destruct (increments_profile_lookup j _ _ 0 Hp') as [Hlabel Htf];
    [rewrite frame_length; lia|].
  rewrite frame_length, Nat.add_0_l, Nat.mod_small in Hlabel by done.
  rewrite frame_length, Nat.add_0_l, Nat.mod_small in Htf by done.
  rewrite frame_label in Hlabel.
  rewrite (list_lookup_fmap _ (seq 0 (length col)) j) in Hlabel.
  rewrite lookup_seq_lt in Hlabel by done.
  rewrite frame_timeframe, lookup_seq_lt in Htf by done.
  simpl in Hlabel, Htf.
  destruct p' as [|first rest]; [done|].
  injection Hlabel as Hlabel. injection Htf as Htf.
  eexists _, first. split; [reflexivity|]. cbn [profile].
  split; [by rewrite Hlen', Hlen|]. split; [done|].
  rewrite Hlabel, Htf, <- Hlen. done.
Qed.
End Alignment.

Lemma Example_config_covered_2h :
  covered Concrete.Timedelta Example.clock_at_2h Example.config 3600
          [1; 2; 3; 4]%Q.
Proof. split; try reflexivity; try discriminate. Defined.

(** The constructor on the clock two hours into the cycle: the first row is
    the third step. *)
Lemma init_aligned_witness :
  (covered Concrete.Timedelta Example.clock_at_2h Example.config 3600
           [1; 2; 3; 4]%Q ∧
   (cycle_steps Example.clock_at_2h Example.config 3600 ≤ 4)%nat) ∧
  ∃ self first,
    init Concrete.Timedelta 4 Example.clock_at_2h [] 7 Example.config
    = Ok (0%nat, Clock.register_increment_listener Example.clock_at_2h 0,
          [self]) ∧
    head (profile self) = Some first ∧
    Clock.current_date Example.clock_at_2h ≤ label first.
Proof.
  assert (Hfuel : (cycle_steps Example.clock_at_2h Example.config 3600 ≤ 4)%nat)
    by (vm_compute; repeat constructor).
  split; [split; [exact Example_config_covered_2h|exact Hfuel]|].
  destruct (init_aligned Concrete.Timedelta 4 Example.clock_at_2h [] 7
              Example.config 3600 [1; 2; 3; 4]%Q Example_config_covered_2h Hfuel)
    as (self & first & Hinit & _ & Hhead & Hdate & _).
  exists self, first. split; [exact Hinit|]. split; [exact Hhead|exact Hdate].
Defined.

(** The frame of the concrete run against a clock in the last half hour of
    the cycle: every label is before the date, and the constructor does not
    return, with 12 iterations of its loop as with any number. *)
Lemma align_never_ends_witness :
  (profile Example.generator ≠ [] ∧
   Forall (λ l, l < Clock.current_date Example.clock_at_3h30)
          (label <$> profile Example.generator)) ∧
  align 12 (Clock.current_date Example.clock_at_3h30)
        (profile Example.generator) = Diverges ∧
  init Concrete.Timedelta 12 Example.clock_at_3h30 [] 7 Example.config
  = Diverges.
Proof.
  assert (Hne : profile Example.generator ≠ []) by discriminate.
  assert (Hall : Forall (λ l, l < Clock.current_date Example.clock_at_3h30)
                        (label <$> profile Example.generator))
    by (repeat constructor).
  split; [split; [exact Hne|exact Hall]|].
  split; [exact (align_never_ends 12 _ _ Hne Hall)|].
  vm_compute. reflexivity.
Defined.

(** ** The clock and its listeners *)

Section ClockListeners.
Context {RS : Type} `{!RandomState RS}.
Variable strftime : Z → string → string.
Implicit Types (c : Clock.t RS) (store : list (t RS)) (self : t RS).

Lemma increments_add (a b : nat) self :
  increments (a + b) self = do self' <- increments a self; increments b self'.
Proof.
  revert self. induction a as [|a IH]; intros self; [done|].
  cbn [Nat.add increments].
  destruct (increment self) as [g| | |]; cbn [bind]; [|done..]. apply IH.
Qed.

Lemma registrations_cons (i j : nat) (listeners : list nat) :
  registrations i (j :: listeners)
  = ((if decide (j = i) then 1 else 0) + registrations i listeners)%nat.
Proof.
  unfold registrations. destruct (decide (j = i)) as [Hji|Hji].
  - by rewrite filter_cons_True.
  - by rewrite filter_cons_False.
Qed.

Lemma notify_registrations (listeners : list nat) store :
  listeners_ok listeners store →
  ∃ store',
    Clock.notify listeners store = Ok store' ∧
    length store' = length store ∧
    Forall (λ g, profile g ≠ []) store' ∧
    ∀ i self, store !! i = Some self →
      ∃ self', increments (registrations i listeners) self = Ok self' ∧
               store' !! i = Some self'.
Proof.
  revert store. induction listeners as [|j listeners IH]; intros store [Hj Hne].
  - exists store. split; [done|]. split; [done|]. split; [done|].
    intros i self Hi. by exists self.
  - apply Forall_cons in Hj as [Hj Hrest].
    destruct (lookup_lt_is_Some_2 store j Hj) as [gj Hgj].
    assert (Hgjne : profile gj ≠ []).
    { eapply Forall_forall in Hne; [exact Hne|]. by eapply list_elem_of_lookup_2. }
    destruct (increment_is_Ok gj Hgjne) as [gj' Hinc].
    destruct (IH (<[j := gj']> store)) as (store' & Hnotify & Hlen & Hne' & Hall).
    { split; [by rewrite length_insert|].
      apply Forall_insert; [done|]. by eapply increment_keeps_rows. }
    exists store'. cbn [Clock.notify]. rewrite Hgj.
    change (listener_increment gj) with (increment gj). rewrite Hinc. cbn [bind].
    split; [done|]. rewrite length_insert in Hlen. split; [done|]. split; [done|].
    intros i self Hi. rewrite registrations_cons.
    destruct (decide (j = i)) as [<-|Hji].
    + assert (self = gj) as -> by congruence.
      destruct (Hall j gj') as (self' & Hincs & Hself').
      { by apply list_lookup_insert_eq. }
      exists self'. split; [|done].
      cbn [Nat.add increments]. by rewrite Hinc.
    + apply Hall. by rewrite list_lookup_insert_ne.
Qed.

Lemma run_registrations (n : nat) c store :
  listeners_ok (Clock.increment_listeners c) store →
  ∃ c' store',
    Clock.run n c store = Ok (c', store') ∧
    Clock.current_date c'
    = Clock.current_date c + Z.of_nat n * Clock.step_delta c ∧
    Clock.increment_listeners c' = Clock.increment_listeners c ∧
    length store' = length store ∧
    ∀ i self, store !! i = Some self →
      ∃ self',
        increments (n * registrations i (Clock.increment_listeners c)) self
        = Ok self' ∧
        store' !! i = Some self'.
Proof.
  revert c store. induction n as [|n IH]; intros c store Hok.
  - exists c, store. split; [done|]. split; [lia|]. split; [done|]. split; [done|].
    intros i self Hi. by exists self.
  - destruct (notify_registrations _ _ Hok) as (store1 & Hnotify & Hlen1 & Hne1 & Hall1).
    set (c1 := Clock.set_current_date c (Clock.current_date c + Clock.step_delta c)).
    destruct (IH c1 store1) as (c' & store' & Hrun & Hdate & Hls & Hlen & Hall).
    { split; [|done]. rewrite Hlen1. apply Hok. }
    exists c', store'. cbn [Clock.run]. unfold Clock.increment.
    change (Clock.increment_listeners
              (Clock.set_current_date c (Clock.current_date c + Clock.step_delta c)))
      with (Clock.increment_listeners c).
    rewrite Hnotify. cbn [bind fst snd]. fold c1.
    split; [done|]. split; [rewrite Hdate; simpl; lia|].
    split; [done|]. split; [congruence|].
    intros i self Hi.
    destruct (Hall1 i self Hi) as (self1 & Hincs1 & Hself1).
    destruct (Hall i self1 Hself1) as (self' & Hincs & Hself').
    exists self'. split; [|done].
    change (S n * registrations i (Clock.increment_listeners c))%nat
      with (registrations i (Clock.increment_listeners c)
            + n * registrations i (Clock.increment_listeners c))%nat.
    rewrite increments_add, Hincs1. cbn [bind]. exact Hincs.
Qed.
(** A tick of the clock rotates every generator of the store once for each
    time it is registered: a generator that is not registered is left as it
    is, and one that has been registered twice is rotated twice.  So after
    [n] ticks, which return, the date of the clock has advanced by [n]
    steps and the generator at an address has been rotated [n] times the
    number of its registrations. *)
Theorem clock_run_rotates_registered (n : nat) c store :
  listeners_ok (Clock.increment_listeners c) store →
  ∃ c' store',
    Clock.run n c store = Ok (c', store') ∧
    Clock.current_date c'
    = Clock.current_date c + Z.of_nat n * Clock.step_delta c ∧
    Clock.increment_listeners c' = Clock.increment_listeners c ∧
    length store' = length store ∧
    ∀ i self, store !! i = Some self →
      ∃ self',
        increments (n * registrations i (Clock.increment_listeners c)) self
        = Ok self' ∧
        store' !! i = Some self'.
Proof. apply run_registrations. Qed.
End ClockListeners.

Section ClockCycle.
Context {RS : Type} `{!RandomState RS}.
Implicit Types (c : Clock.t RS) (store : list (t RS)) (self : t RS).


End ClockCycle.

Section ClockEdges.
Context {RS : Type} `{!RandomState RS}.
Variable strftime : Z → string → string.
Implicit Types (c : Clock.t RS).

(** The column of timestamps that the clock adds to a batch of rows: on a
    clock with a positive step it has the name asked for and the index of
    the batch, row by row, each value is the text of an instant of the
    current step, and the date of the clock is not changed. *)
Theorem build_output_on_index {I} c (named_as : string) (action_data_index : list I) :
  0 < Clock.step_s c →
  ∃ rows c',
    Clock.build_output strftime c named_as action_data_index
    = Ok (named_as, rows, c') ∧
    rows.*1 = action_data_index ∧
    Clock.current_date c' = Clock.current_date c ∧
    Forall (λ ts, ∃ date,
              Clock.current_date c ≤ date < Clock.current_date c + Clock.step_s c ∧
              ts = strftime date (Clock.output_format c))
           rows.*2.
Proof.
  intros Hstep.
  destruct (choice_spec (Clock.state c) (Clock.step_s c)
              (length action_data_index) Hstep)
    as (xs & s' & Hchoice & Hlen & Hxs).
  unfold Clock.build_output, Clock.get_timestamp. rewrite Hchoice. cbn [bind fst snd].
  rewrite decide_True by (by rewrite length_fmap).
  eexists _, _. split; [reflexivity|].
  split; [apply fst_zip; rewrite length_fmap; lia|].
  split; [done|].
  rewrite snd_zip by (rewrite length_fmap; lia).
  apply Forall_fmap. eapply Forall_impl; [exact Hxs|].
  intros x Hx. cbv beta in Hx. exists (Clock.current_date c + x).
  split; [lia|done].
Qed.
End ClockEdges.

(** ** The file of a profile *)

Section PersistenceEdges.
Import CyclicTimerProfile.
Variable str_of_float : float64 → string.
Variable float_of_str : string → option float64.
Variable str_of_Timestamp : Z → string.
Variable Timestamp : string → option Z.

(** The file that [save_to] writes holds a row per weight, in order, under
    the key ["profile"] and the position of the weight, then the row of the
    anchor date and the row of the duration of a phase; the other files are
    left as they are. *)
Theorem save_to_layout (self : t) (file_path : string)
    (fs : gmap string (list csv_row)) :
  let fs' := save_to str_of_float str_of_Timestamp self file_path fs in
  (∃ rows,
     fs' !! file_path
     = Some (rows ++ [("start_date"%string, 0, str_of_Timestamp (start_date self));
                      ("profile_time_steps"%string, 0, profile_time_steps self)]) ∧
     length rows = length (profile self) ∧
     ∀ i w, profile self !! i = Some w →
            rows !! i = Some ("profile"%string, Z.of_nat i, str_of_float w)) ∧
  ∀ other, other ≠ file_path → fs' !! other = fs !! other.
Proof.
  intros fs'. split.
  - exists (profile_rows str_of_float (profile self)).
    split; [apply save_to_file|]. unfold profile_rows.
    split; [apply length_imap|].
    intros i w Hw. by rewrite list_lookup_imap, Hw.
  - intros other Hother. unfold fs', save_to. by rewrite lookup_insert_ne.
Qed.

End PersistenceEdges.

(** The generator of the concrete run registered twice: one tick rotates it
    twice. *)
Lemma clock_run_rotates_registered_witness :
  listeners_ok [0; 0]%nat [Example.generator] ∧
  ∃ c' store' self',
    Clock.run 1
      (Clock.register_increment_listener
         (Clock.register_increment_listener Example.clock 0) 0)
      [Example.generator]
    = Ok (c', store') ∧
    increments 2 Example.generator = Ok self' ∧
    store' !! 0%nat = Some self'.
Proof.
  assert (Hok : listeners_ok [0; 0]%nat [Example.generator]).
  { split; repeat constructor. discriminate. }
  split; [exact Hok|].
  destruct (clock_run_rotates_registered 1
              (Clock.register_increment_listener
                 (Clock.register_increment_listener Example.clock 0) 0)
              [Example.generator] Hok)
    as (c' & store' & Hrun & _ & _ & _ & Hall).
  destruct (Hall 0%nat Example.generator eq_refl) as (self' & Hincs & Hself').
  exists c', store', self'. split; [exact Hrun|]. split; [exact Hincs|exact Hself'].
Defined.


Lemma build_output_on_index_witness :
  0 < Clock.step_s Example.clock ∧
  ∃ rows c',
    Clock.build_output Concrete.strftime Example.clock "TIME" [10; 11; 12]%nat
    = Ok ("TIME"%string, rows, c') ∧
    rows.*1 = [10; 11; 12]%nat.
Proof.
  split; [reflexivity|].
  destruct (build_output_on_index Concrete.strftime Example.clock "TIME"
              [10; 11; 12]%nat eq_refl)
    as (rows & c' & Hout & Hindex & _).
  exists rows, c'. split; [exact Hout|exact Hindex].
Defined.

Lemma save_to_layout_witness :
  ∃ rows,
    CyclicTimerProfile.save_to Concrete.str_of_float Concrete.str_of_Timestamp
      Example.config "profile.csv" ∅ !! "profile.csv"
    = Some (rows ++ [("start_date"%string, 0, "1577836800"%string);
                     ("profile_time_steps"%string, 0, "1h"%string)]) ∧
    rows !! 2%nat = Some ("profile"%string, 2, "3"%string).
Proof.
  destruct (save_to_layout Concrete.str_of_float Concrete.str_of_Timestamp
              Example.config "profile.csv" ∅)
    as [(rows & Hfile & _ & Hrows) _].
  exists rows. split; [exact Hfile|].
  exact (Hrows 2%nat (Num 3) eq_refl).
Defined.

